(** * python-ngram: the n-gram index of [ngram.py] and [ngram_abstract.py]

    A shallow embedding of the in-memory [NGram] class (a Python 2 [set]
    extended with an inverted n-gram index) and of the search and scoring
    code it inherits from [NGramAbstract].

    Modelling conventions.
    - Items are strings.  The keyless default [key(item) = item] requires
      it, and a key function is a function from strings to strings.
    - Python dictionaries are [gmap]s, the base [set] is a [gset].  The
      order in which Python iterates a dictionary depends on how it was
      filled: [search] takes the order of [map_to_list], and [search_in]
      takes the order as an argument, for what has to hold in every
      order.
    - Python [int]s are [Z] where they can be negative (configuration
      values, the [allgrams] denominator) and [nat] where the code only
      ever counts up from zero (string lengths, occurrence counts).
    - Python [float]s are idealised as real numbers: arithmetic is exact,
      [x ** y] is the real power.  Statements about scores are therefore
      statements about the formula the code computes, not about rounding.
    - A raised exception is a value of type [exn]; a method that mutates
      the object and may raise returns the exception together with the
      state the object is left in. *)

From Stdlib Require Import ZArith Lia String Ascii List Reals Lra.
From stdpp Require Import base gmap sets list strings sorting.

#[local] Set Warnings "-clear-no-such-hyp".
Local Open Scope Z_scope.

(** ** Exceptions and the error monad *)

Inductive exn : Type :=
  | ValueError (msg : string)
  | TypeError (msg : string)
  | KeyError
  | IndexError
  | ZeroDivisionError
  | RuntimeError.

Definition result (A : Type) : Type := exn + A.

Definition ret {A} (a : A) : result A := inr a.
Definition raise {A} (e : exn) : result A := inl e.
Definition bind {A B} (m : result A) (k : A → result B) : result B :=
  match m with
  | inl e => inl e
  | inr a => k a
  end.

Notation "'let*' x ':=' m 'in' k" := (bind m (λ x, k))
  (at level 10, x name, m at level 100, k at level 200, only parsing).

(** ** Python built-ins used by the source *)

(** [len(s)] as an integer. *)
Definition len (s : string) : Z := Z.of_nat (String.length s).

(** [s * n] on a string: [n] copies of [s], none when [n <= 0]. *)
Fixpoint str_rep (s : string) (n : nat) : string :=
  match n with
  | O => ""
  | S n' => s +:+ str_rep s n'
  end.

Definition str_mul (s : string) (n : Z) : string := str_rep s (Z.to_nat n).

(** An index of a slice, brought into [0 .. len]: a negative index counts
    from the end. *)
Definition slice_index (l i : Z) : Z :=
  if i <? 0 then Z.max 0 (i + l) else Z.min i l.

(** [s[i:j]]. *)
Definition py_slice (s : string) (i j : Z) : string :=
  let lo := slice_index (len s) i in
  let hi := slice_index (len s) j in
  substring (Z.to_nat lo) (Z.to_nat (hi - lo)) s.

(** [range(n)]. *)
Definition py_range (n : Z) : list Z := Z.of_nat <$> seq 0 (Z.to_nat n).

(** Floats.  [x <= y], [x / y] and [x ** y]. *)

Definition Rleb (x y : R) : bool := if Rle_dec x y then true else false.

Definition float_div (x y : R) : result R :=
  if Req_dec_T y 0 then raise ZeroDivisionError else ret (x / y)%R.

(** [x ** y] with a float operand, by the cases Python 2 distinguishes: a
    zero exponent gives [1.0]; a zero base gives [0.0] (a negative exponent
    raises); a negative base raises for a fractional exponent; the rest is
    the real power. *)
Definition float_pow (x y : R) : result R :=
  if Req_dec_T y 0 then ret 1%R
  else if Req_dec_T x 0 then
    (if Rlt_dec y 0 then raise ZeroDivisionError else ret 0%R)
  else if Rlt_dec 0 x then ret (Rpower x y)
  else if Req_dec_T (IZR (Int_part y)) y then ret (powerRZ x (Int_part y))
  else raise (ValueError
                "negative number cannot be raised to a fractional power").

(** The values a caller can pass for the arguments of [__init__]. *)
Inductive pynum : Type :=
  | PInt (z : Z)
  | PFloat (x : R).

Inductive pyval : Type :=
  | PyNone
  | PyNum (n : pynum)
  | PyStr (s : string)
  | PyFun (f : string → string)
  | PyObj (type_name : string).

Definition num_val (n : pynum) : R :=
  match n with
  | PInt z => IZR z
  | PFloat x => x
  end.

Definition type_name_of (v : pyval) : string :=
  match v with
  | PyNone => "NoneType"
  | PyNum (PInt _) => "int"
  | PyNum (PFloat _) => "float"
  | PyStr _ => "str"
  | PyFun _ => "function"
  | PyObj t => t
  end.

(** [s + v] with a string on the left: only a string can be appended. *)
Definition str_add (s : string) (v : pyval) : result string :=
  match v with
  | PyStr t => ret (s +:+ t)
  | _ => raise (TypeError ("cannot concatenate 'str' and '"
                           +:+ type_name_of v +:+ "' objects"))
  end.

(** [raise ValueError(s + v)]: the message is built first. *)
Definition raise_ValueError {A} (s : string) (v : pyval) : result A :=
  let* msg := str_add s v in
  raise (ValueError msg).

(** * The class [NGram] *)

Module NGram.

(** ** Configuration

    The attributes [__init__] stores on the object.  [_padding] is derived
    from [_pad_char] and [_pad_len] once and never reassigned. *)

Record config : Type := Config {
  threshold : R;
  warp : R;
  N : Z;
  _pad_len : Z;
  _pad_char : string;
  _key : option (string → string)
}.

Definition _padding (cfg : config) : string :=
  str_mul (_pad_char cfg) (_pad_len cfg).

(** The conditions [__init__] checks before it stores the attributes. *)
Definition valid (cfg : config) : Prop :=
  (0 <= threshold cfg <= 1)%R ∧
  (1 <= warp cfg <= 3)%R ∧
  1 ≤ N cfg ∧
  0 ≤ _pad_len cfg < N cfg ∧
  String.length (_pad_char cfg) = 1%nat.

(** ** Tokenizer ([ngram_abstract.py], lines 98-143) *)

Definition key (cfg : config) (item : string) : string :=
  match _key cfg with
  | Some f => f item
  | None => item
  end.

Definition pad (cfg : config) (s : string) : string :=
  _padding cfg +:+ s +:+ _padding cfg.

Definition _split (cfg : config) (s : string) : list string :=
  (λ i, py_slice s i (i + N cfg)) <$> py_range (len s - N cfg + 1).

Definition split (cfg : config) (s : string) : list string :=
  _split cfg (pad cfg s).

Definition splititem (cfg : config) (item : string) : list string :=
  split cfg (key cfg item).

(** The configuration of [NGram()] with every argument left at its default. *)
Definition default_config : config :=
  {| threshold := 0; warp := 1; N := 3; _pad_len := 2; _pad_char := "$";
     _key := None |}.

(** ** The index ([ngram.py])

    The three tables of an [NGram] object: the base [set] of items, the
    [length] dictionary and the [_grams] dictionary of dictionaries. *)

Record index : Type := Index {
  members : gset string;
  lengths : gmap string nat;
  _grams : gmap string (gmap string nat)
}.

Definition empty_index : index :=
  {| members := ∅; lengths := ∅; _grams := ∅ |}.

(** [grams[ngram][item]] as a lookup that fails when either key is absent. *)
Definition gram_count (grams : gmap string (gmap string nat))
    (ngram item : string) : option nat :=
  match grams !! ngram with
  | Some sub => sub !! item
  | None => None
  end.

(** One iteration of the loop of [add] (lines 130-132). *)
Definition incr_gram (item : string) (grams : gmap string (gmap string nat))
    (ngram : string) : gmap string (gmap string nat) :=
  let sub := default ∅ (grams !! ngram) in
  let c := default 0%nat (sub !! item) in
  <[ngram := <[item := S c]> sub]> grams.

Definition add (cfg : config) (item : string) (st : index) : index :=
  if decide (item ∈ members st) then st
  else
    let padded_item := pad cfg (key cfg item) in
    {| members := {[item]} ∪ members st;
       lengths := <[item := String.length padded_item]> (lengths st);
       _grams := foldl (incr_gram item) (_grams st) (_split cfg padded_item) |}.

Definition update (cfg : config) (items : list string) (st : index) : index :=
  foldl (λ st item, add cfg item st) st items.

(** The loop of [remove] (lines 145-146): [del] raises [KeyError] when the
    n-gram or the item is not a key, and the deletions already made stay. *)
Fixpoint del_grams (item : string) (ngrams : list string)
    (grams : gmap string (gmap string nat))
    : option exn * gmap string (gmap string nat) :=
  match ngrams with
  | [] => (None, grams)
  | ngram :: rest =>
      match grams !! ngram with
      | None => (Some KeyError, grams)
      | Some sub =>
          match sub !! item with
          | None => (Some KeyError, grams)
          | Some _ => del_grams item rest (<[ngram := delete item sub]> grams)
          end
      end
  end.

(** [remove] returns the exception it raised, if any, and the state it
    leaves the object in. *)
Definition remove (cfg : config) (item : string) (st : index)
    : option exn * index :=
  if decide (item ∈ members st) then
    let members' := members st ∖ {[item]} in
    match lengths st !! item with
    | None =>
        (Some KeyError,
         {| members := members'; lengths := lengths st; _grams := _grams st |})
    | Some _ =>
        let '(e, grams') :=
          del_grams item (splititem cfg item) (_grams st) in
        (e, {| members := members'; lengths := delete item (lengths st);
               _grams := grams' |})
    end
  else (None, st).

Definition discard (cfg : config) (item : string) (st : index)
    : option exn * index :=
  if decide (item ∈ members st) then remove cfg item st else (None, st).

Definition get_item_length (st : index) (mtch : string) : result nat :=
  match lengths st !! mtch with
  | Some l => ret l
  | None => raise KeyError
  end.

(** One iteration of the inner loop of [items_sharing_ngrams]
    (lines 166-171) on the pair [(shared, remaining)]. *)
Definition credit (ngram : string)
    (acc : gmap string nat * gmap string (gmap string nat))
    (mc : string * nat) : gmap string nat * gmap string (gmap string nat) :=
  let '(shared, remaining) := acc in
  let '(mtch, count) := mc in
  let sub := default ∅ (remaining !! ngram) in
  let r := default count (sub !! mtch) in
  if (0 <? r)%nat then
    (<[mtch := S (default 0%nat (shared !! mtch))]> shared,
     <[ngram := <[mtch := Nat.pred r]> sub]> remaining)
  else
    (shared, <[ngram := <[mtch := r]> sub]> remaining).

(** One iteration of the outer loop: a [KeyError] of [self._grams[ngram]]
    is caught and the n-gram skipped. *)
Definition credit_ngram (grams : gmap string (gmap string nat))
    (acc : gmap string nat * gmap string (gmap string nat))
    (ngram : string) : gmap string nat * gmap string (gmap string nat) :=
  match grams !! ngram with
  | Some sub => foldl (credit ngram) acc (map_to_list sub)
  | None => acc
  end.

Definition items_sharing_ngrams (cfg : config) (st : index) (query : string)
    : gmap string nat :=
  (foldl (credit_ngram (_grams st)) (∅, ∅) (split cfg query)).1.

(** ** Scoring ([ngram_abstract.py], lines 234-263) *)

Definition _similarity (samegrams allgrams : Z) (warp : R) : result R :=
  if Rlt_dec (Rabs (warp - 1)) 1e-9 then
    float_div (IZR samegrams) (IZR allgrams)
  else
    let diffgrams := IZR (allgrams - samegrams) in
    let* aw := float_pow (IZR allgrams) warp in
    let* dw := float_pow diffgrams warp in
    let* aw' := float_pow (IZR allgrams) warp in
    float_div (aw - dw) aw'.

(** ** Search ([ngram_abstract.py], lines 170-199) *)

(** [results.sort(key=lambda x:x[1], reverse=True)]: a stable sort by
    decreasing score, here by insertion. *)
Fixpoint insert_desc (x : string * R) (l : list (string * R))
    : list (string * R) :=
  match l with
  | [] => [x]
  | y :: l' =>
      if Rlt_dec x.2 y.2 then y :: insert_desc x l' else x :: y :: l'
  end.

Definition sort_desc (l : list (string * R)) : list (string * R) :=
  foldr insert_desc [] l.

(** The denominator computed at lines 192-193. *)
Definition allgrams_of (cfg : config) (query : string)
    (item_length samegrams : nat) : Z :=
  len (pad cfg query) + Z.of_nat item_length - 2 * N cfg
  - Z.of_nat samegrams + 2.

(** One iteration of the loop of [search]; an exception ends the loop. *)
Definition search_step (cfg : config) (st : index) (query : string)
    (threshold : R) (acc : result (list (string * R)))
    (ms : string * nat) : result (list (string * R)) :=
  let* results := acc in
  let* item_length := get_item_length st ms.1 in
  let allgrams := allgrams_of cfg query item_length ms.2 in
  let* similarity := _similarity (Z.of_nat ms.2) allgrams (warp cfg) in
  if Rleb threshold similarity then ret (results ++ [(ms.1, similarity)])
  else ret results.

Definition search (cfg : config) (st : index) (query : string)
    (thr : option R) : result (list (string * R)) :=
  let threshold := default (threshold cfg) thr in
  let* results :=
    foldl (search_step cfg st query threshold) (ret [])
      (map_to_list (items_sharing_ngrams cfg st query)) in
  ret (sort_desc results).

(** [search] taking the candidates in the order [cands].  The loop of
    [search] follows [dict.iteritems()], whose order depends on how the
    dictionary was filled; [cands] stands for any such order, and
    [search] is [search_in] at the order of [map_to_list]. *)
Definition search_in (cfg : config) (st : index) (query : string)
    (thr : option R) (cands : list (string * nat))
    : result (list (string * R)) :=
  let threshold := default (threshold cfg) thr in
  let* results :=
    foldl (search_step cfg st query threshold) (ret []) cands in
  ret (sort_desc results).

Definition find (cfg : config) (st : index) (query : string)
    (thr : option R) : result (option string) :=
  let* results := search cfg st query thr in
  match results with
  | r :: _ => ret (Some r.1)
  | [] => ret None
  end.

(** ** Construction ([ngram_abstract.py], lines 71-96; [ngram.py], 73-78) *)

Record init_args : Type := InitArgs {
  arg_threshold : pynum;
  arg_warp : pynum;
  arg_N : Z;
  arg_pad_len : option Z;
  arg_pad_char : pyval;
  arg_key : pyval
}.

(** The keyword arguments left at their defaults. *)
Definition default_args : init_args :=
  {| arg_threshold := PFloat 0; arg_warp := PFloat 1; arg_N := 3;
     arg_pad_len := None; arg_pad_char := PyStr "$"; arg_key := PyNone |}.

(** The checks of [NGramAbstract.__init__] and the attributes it stores. *)
Definition init (a : init_args) : result config :=
  let threshold := num_val (arg_threshold a) in
  let warp := num_val (arg_warp a) in
  let N := arg_N a in
  if negb (Rleb 0 threshold && Rleb threshold 1)
  then raise_ValueError "Threshold outside 0.0 to 1.0 range: "
         (PyNum (arg_threshold a))
  else if negb (Rleb 1 warp && Rleb warp 3)
  then raise_ValueError "Warp outside 1.0 to 3.0 range: " (PyNum (arg_warp a))
  else if negb (1 <=? N)
  then raise_ValueError "Require N >= 1, not: " (PyNum (PInt N))
  else
    let pad_len := default (N - 1) (arg_pad_len a) in
    if negb ((0 <=? pad_len) && (pad_len <? N))
    then raise_ValueError "pad_len out of range: " (PyNum (PInt pad_len))
    else
      match arg_pad_char a with
      | PyStr pad_char =>
          if negb (String.length pad_char =? 1)%nat
          then raise_ValueError "pad_char not single-character string: "
                 (arg_pad_char a)
          else
            match arg_key a with
            | PyNone =>
                ret {| threshold := threshold; warp := warp; N := N;
                       _pad_len := pad_len; _pad_char := pad_char;
                       _key := None |}
            | PyFun f =>
                ret {| threshold := threshold; warp := warp; N := N;
                       _pad_len := pad_len; _pad_char := pad_char;
                       _key := Some f |}
            | key => raise_ValueError "key is not a function: " key
            end
      | pad_char =>
          raise_ValueError "pad_char not single-character string: " pad_char
      end.

(** [NGram(items, **kwargs)]: the tables start empty, the arguments are
    checked, and only then are the items added. *)
Definition NGram_new (items : list string) (a : init_args)
    : result (config * index) :=
  let* cfg := init a in
  ret (cfg, update cfg items empty_index).

(** [NGram.compare] (lines 179-205); [None] is an absent string. *)
Definition compare (s1 s2 : option string) (kwargs : init_args) : result R :=
  match s1, s2 with
  | Some a, Some b =>
      let r :=
        let* obj := NGram_new [a] kwargs in
        let* results := search obj.1 obj.2 b None in
        match results with
        | r :: _ => ret r.2
        | [] => raise IndexError
        end in
      match r with
      | inl IndexError => ret 0%R
      | _ => r
      end
  | None, None => ret 1%R
  | _, _ => ret 0%R
  end.

(** ** The remaining methods *)

(** [searchitem] and [finditem] ([ngram_abstract.py], lines 157-168 and
    201-216).  [searchitem] accepts a threshold and calls [search] without
    it. *)
Definition searchitem (cfg : config) (st : index) (item : string)
    (thr : option R) : result (list (string * R)) :=
  search cfg st (key cfg item) None.

Definition finditem (cfg : config) (st : index) (item : string)
    (thr : option R) : result (option string) :=
  let* results := searchitem cfg st item thr in
  match results with
  | r :: _ => ret (Some r.1)
  | [] => ret None
  end.

(** [difference_update] ([ngram.py], lines 207-217): [discard] for each
    element of [other], in the order of its iteration; an exception ends
    the loop and what was discarded stays discarded.  Here [other] is a
    collection of its own, given by the sequence of its iteration; the
    call on the index itself is [difference_update_self]. *)
Fixpoint difference_update (cfg : config) (other : list string) (st : index)
    : option exn * index :=
  match other with
  | [] => (None, st)
  | x :: rest =>
      match discard cfg x st with
      | (None, st') => difference_update cfg rest st'
      | (Some e, st') => (Some e, st')
      end
  end.

(** [difference_update] called on the index itself,
    [n.difference_update(n)]: the loop iterates the very set [discard]
    shrinks.  An empty set ends the loop at once.  Otherwise the first
    item is discarded, and when the iterator is asked for the next one it
    finds the size of the set changed and raises [RuntimeError]; a
    [KeyError] of the [discard] comes first. *)
Definition difference_update_self (cfg : config) (st : index)
    : option exn * index :=
  match elements (members st) with
  | [] => (None, st)
  | x :: _ =>
      match discard cfg x st with
      | (None, st') => (Some RuntimeError, st')
      | (Some e, st') => (Some e, st')
      end
  end.

(** [intersection_update] (lines 219-228): the items to drop are collected
    from the set first. *)
Definition intersection_update (cfg : config) (other : gset string)
    (st : index) : option exn * index :=
  difference_update cfg
    (filter (λ x, x ∉ other) (elements (members st))) st.

(** [symmetric_difference_update] (lines 230-241).  The last statement
    calls [difference_update], a method of one argument, with two: the
    call raises [TypeError] once [update] has run. *)
Definition symmetric_difference_update (cfg : config) (other : list string)
    (st : index) : option exn * index :=
  let intersection := members st ∩ list_to_set other in
  let st' := update cfg other st in
  (Some (TypeError
           "difference_update() takes exactly 2 arguments (3 given)"),
   st').

(** The arguments [copy] and [__reduce__] hand to the constructor
    (lines 80-109): the stored attributes, after the items.  A stored
    number is handed over with its value; whether it was given as an
    [int] or a [float] shows only in the message of a failed check. *)
Definition attributes (cfg : config) : init_args :=
  {| arg_threshold := PFloat (threshold cfg);
     arg_warp := PFloat (warp cfg);
     arg_N := N cfg;
     arg_pad_len := Some (_pad_len cfg);
     arg_pad_char := PyStr (_pad_char cfg);
     arg_key := match _key cfg with
                | Some f => PyFun f
                | None => PyNone
                end |}.

Definition __reduce__ (cfg : config) (st : index)
    : list string * init_args :=
  (elements (members st), attributes cfg).

Definition copy (cfg : config) (st : index) : result (config * index) :=
  NGram_new (elements (members st)) (attributes cfg).


End NGram.

Import NGram.

(** * Specification-level notions *)

(** The conditions on the arguments as the specification lists them. *)
Definition args_ok (a : init_args) : Prop :=
  (0 <= num_val (arg_threshold a) <= 1)%R ∧
  (1 <= num_val (arg_warp a) <= 3)%R ∧
  1 ≤ arg_N a ∧
  0 ≤ default (arg_N a - 1) (arg_pad_len a) < arg_N a ∧
  (∃ c, arg_pad_char a = PyStr c ∧ String.length c = 1%nat) ∧
  (arg_key a = PyNone ∨ ∃ f, arg_key a = PyFun f).

(** The number of times [g] occurs in a sequence of n-grams. *)
Definition occ (g : string) (l : list string) : nat :=
  length (filter (λ x, x = g) l).

(** The shared count as the specification words it: the sum, over the
    n-grams of the inverted index, of the smaller of the number of times
    the query produces the n-gram and the number of times the index records
    it for the item. *)
Definition capped (ngrams : list string) (item : string)
    (entry : string * gmap string nat) : nat :=
  occ entry.1 ngrams `min` default 0%nat (entry.2 !! item).

Definition shared_count (grams : gmap string (gmap string nat))
    (ngrams : list string) (item : string) : nat :=
  sum_list (capped ngrams item <$> map_to_list grams).

(** A dictionary entry that exists only when the count is positive. *)
Definition positive (n : nat) : option nat :=
  if decide (n = 0%nat) then None else Some n.

(** The number of n-grams two sequences have in common, counted with
    multiplicity: the sum over the keys [D] of the smaller occurrence
    count, and the same sum over the distinct n-grams of the first
    sequence. *)
Definition common (D l1 l2 : list string) : nat :=
  sum_list ((λ g, occ g l1 `min` occ g l2)%nat <$> D).

Definition common_grams (l1 l2 : list string) : nat :=
  common (remove_dups l1) l1 l2.

(** The score as the specification words it, on exact reals: the plain
    ratio when the warp is within [1e-9] of one, and otherwise
    [(a^w - d^w) / a^w] with [d = a - s], where [x^w] is the real power of
    a non-negative base. *)
Definition rpow (x w : R) : R :=
  if Req_dec_T x 0 then 0%R else Rpower x w.

Definition score (samegrams allgrams : Z) (warp : R) : R :=
  if Rlt_dec (Rabs (warp - 1)) 1e-9 then (IZR samegrams / IZR allgrams)%R
  else
    ((rpow (IZR allgrams) warp - rpow (IZR (allgrams - samegrams)) warp)
     / rpow (IZR allgrams) warp)%R.


(** ** Index states

    The three tables describe the same items: an item of the base set has
    its padded length recorded and is counted under each of its n-grams as
    often as the n-gram occurs in it, and no other item is recorded. *)
Definition consistent (cfg : config) (st : index) : Prop :=
  (∀ item, lengths st !! item =
     if decide (item ∈ members st)
     then Some (String.length (pad cfg (key cfg item))) else None) ∧
  (∀ g item, gram_count (_grams st) g item =
     if decide (item ∈ members st)
     then positive (occ g (splititem cfg item)) else None).

(** The states an [NGram] object goes through: it starts empty, and every
    [add] and every [remove] that returns normally gives the next state. *)
Inductive reachable (cfg : config) : index → Prop :=
  | reachable_empty : reachable cfg empty_index
  | reachable_add item st :
      reachable cfg st → reachable cfg (add cfg item st)
  | reachable_remove item st st' :
      reachable cfg st → remove cfg item st = (None, st') →
      reachable cfg st'.

(** The states [add] and [remove] can leave an object in, whether
    [remove] returned or raised. *)
Inductive attainable (cfg : config) : index → Prop :=
  | attainable_empty : attainable cfg empty_index
  | attainable_add item st :
      attainable cfg st → attainable cfg (add cfg item st)
  | attainable_remove item st :
      attainable cfg st → attainable cfg (remove cfg item st).2.

(** What every attainable state keeps: a recorded length is the length of
    the padded key, and an item is recorded only under its own n-grams. *)
Definition recorded (cfg : config) (st : index) : Prop :=
  (∀ m l, lengths st !! m = Some l →
          l = String.length (pad cfg (key cfg m))) ∧
  (∀ g m c, gram_count (_grams st) g m = Some c → g ∈ splititem cfg m).

(** ** Loop invariants *)

(** What one pass of the inner loop of [items_sharing_ngrams] over the
    dictionary [ml] leaves in [shared[m]] and [remaining[g][m]]. *)
Definition after_credit (ml : gmap string nat) (g m : string)
    (acc : gmap string nat * gmap string (gmap string nat))
    : option nat * option nat :=
  match ml !! m with
  | Some c =>
      let r := default c (gram_count acc.2 g m) in
      if (0 <? r)%nat
      then (Some (S (default 0%nat (acc.1 !! m))), Some (Nat.pred r))
      else (acc.1 !! m, Some r)
  | None => (acc.1 !! m, gram_count acc.2 g m)
  end.

(** The invariant of the outer loop of [items_sharing_ngrams] once the
    n-grams [pre] of the query have been processed. *)
Definition sharing_inv (grams : gmap string (gmap string nat))
    (pre : list string)
    (acc : gmap string nat * gmap string (gmap string nat)) : Prop :=
  (∀ m, acc.1 !! m = positive (shared_count grams pre m)) ∧
  (∀ g m, gram_count acc.2 g m =
          if decide (occ g pre = 0%nat) then None
          else (λ c, c - occ g pre `min` c)%nat <$> gram_count grams g m).

(** The pairs [search] keeps from a list of candidates with their shared
    counts, before sorting: those whose length is recorded, whose score is
    computed, and whose score reaches the threshold. *)
Definition kept (cfg : config) (st : index) (query : string) (t : R)
    (cands : list (string * nat)) (item : string) (sim : R) : Prop :=
  ∃ same l,
    (item, same) ∈ cands ∧
    lengths st !! item = Some l ∧
    _similarity (Z.of_nat same) (allgrams_of cfg query l same) (warp cfg)
      = inr sim ∧
    (t <= sim)%R.

(** The order of a ranked result: a later pair never scores higher. *)
Definition ranked (a b : string * R) : Prop := (b.2 <= a.2)%R.

(** The pair [search] computes for a candidate of a consistent index. *)
Definition scored (cfg : config) (st : index) (query : string)
    (ms : string * nat) : string * R :=
  (ms.1,
   score (Z.of_nat ms.2)
     (allgrams_of cfg query (default 0%nat (lengths st !! ms.1)) ms.2)
     (warp cfg)).

(** A score that reaches the threshold [t]. *)
Definition reaches (t : R) (r : string * R) : Prop := Rleb t r.2 = true.

#[global] Instance reaches_dec (t : R) (r : string * R) :
  Decision (reaches t r) := decide (Rleb t r.2 = true).

(** Two states that answer every lookup alike; an n-gram may have an empty
    dictionary in one and none in the other. *)
Definition same_tables (st1 st2 : index) : Prop :=
  members st1 = members st2 ∧
  lengths st1 = lengths st2 ∧
  ∀ g m, gram_count (_grams st1) g m = gram_count (_grams st2) g m.

(** A configuration with a key function, as in
    [NGram(key=lambda x: x[:3])]: items are indexed by their first three
    characters. *)
Definition prefix_config : config :=
  {| threshold := 0; warp := 1; N := 3; _pad_len := 2; _pad_char := "$";
     _key := Some (String.substring 0 3) |}.

(** * Verification *)

(** ** Facts about the built-ins *)

Lemma length_append (s1 s2 : string) :
  String.length (s1 +:+ s2) = (String.length s1 + String.length s2)%nat.
Proof. induction s1 as [|c s1 IH]; simpl; [done | by rewrite IH]. Qed.

Lemma length_str_rep (s : string) (n : nat) :
  String.length (str_rep s n) = (n * String.length s)%nat.
Proof.
  induction n as [|n IH]; simpl; [done |].
  rewrite length_append, IH. lia.
Qed.

Lemma length_substring (s : string) (i n : nat) :
  (i + n ≤ String.length s)%nat → String.length (substring i n s) = n.
Proof.
  revert i n. induction s as [|c s IH]; intros i n Hle; simpl in *.
  - assert (n = 0%nat) by lia. subst. by destruct i.
  - destruct i as [|i]; [destruct n as [|n]|]; simpl; [done | |].
    + f_equal. apply IH. lia.
    + apply IH. lia.
Qed.

Lemma len_append (s1 s2 : string) : len (s1 +:+ s2) = len s1 + len s2.
Proof. unfold len. rewrite length_append. lia. Qed.


Lemma py_slice_window (s : string) (i n : Z) :
  0 ≤ i → 0 ≤ n → i + n ≤ len s →
  py_slice s i (i + n) = substring (Z.to_nat i) (Z.to_nat n) s.
Proof.
  intros Hi Hn Hle. unfold py_slice, slice_index.
  destruct (Z.ltb_spec i 0); [lia |].
  destruct (Z.ltb_spec (i + n) 0); [lia |].
  rewrite !Z.min_l by lia. do 2 f_equal. lia.
Qed.

Lemma length_py_range (n : Z) : length (py_range n) = Z.to_nat n.
Proof. unfold py_range. by rewrite length_fmap, length_seq. Qed.

Lemma lookup_py_range (n : Z) (i : nat) :
  (i < Z.to_nat n)%nat → py_range n !! i = Some (Z.of_nat i).
Proof.
  intros Hi. unfold py_range.
  by rewrite list_lookup_fmap, lookup_seq_lt.
Qed.

(** ** Facts about the tokenizer *)

Lemma len_padding (cfg : config) :
  valid cfg → len (_padding cfg) = _pad_len cfg.
Proof.
  intros (_ & _ & _ & Hp & Hc). unfold len, _padding, str_mul.
  rewrite length_str_rep, Hc. lia.
Qed.

Lemma len_pad (cfg : config) (s : string) :
  valid cfg → len (pad cfg s) = len s + 2 * _pad_len cfg.
Proof.
  intros Hv. unfold pad. rewrite !len_append, (len_padding _ Hv). lia.
Qed.

Lemma length__split (cfg : config) (s : string) :
  length (_split cfg s) = Z.to_nat (len s - N cfg + 1).
Proof. unfold _split. by rewrite length_fmap, length_py_range. Qed.

Lemma lookup__split (cfg : config) (s : string) (i : nat) :
  1 ≤ N cfg → (i < Z.to_nat (len s - N cfg + 1))%nat →
  _split cfg s !! i = Some (substring i (Z.to_nat (N cfg)) s).
Proof.
  intros HN Hi. unfold _split.
  rewrite list_lookup_fmap, (lookup_py_range _ _ Hi). simpl.
  rewrite py_slice_window by lia. by rewrite Nat2Z.id.
Qed.

(** C6.  For a key of length [k] under a validated configuration with
    n-gram size [N] and padding length [p], [split] yields exactly
    [k + 2p - N + 1] n-grams when that number is not negative and none
    otherwise; the [i]-th n-gram is the substring of length [N] of the
    padded string that starts at offset [i], for [i] from [0] to
    [len(padded) - N] in that order. *)
Theorem split_length_law (cfg : config) (s : string) :
  valid cfg →
  let n := len s + 2 * _pad_len cfg - N cfg + 1 in
  (0 ≤ n → Z.of_nat (length (split cfg s)) = n) ∧
  (n < 0 → split cfg s = []) ∧
  (n = len (pad cfg s) - N cfg + 1) ∧
  (∀ i : nat, Z.of_nat i < n →
     split cfg s !! i = Some (substring i (Z.to_nat (N cfg)) (pad cfg s)) ∧
     len (substring i (Z.to_nat (N cfg)) (pad cfg s)) = N cfg) ∧
  (∀ i : nat, n ≤ Z.of_nat i → split cfg s !! i = None).
Proof.
  intros Hv n.
  pose proof (len_pad cfg s Hv) as Hlen.
  assert (Hn : n = len (pad cfg s) - N cfg + 1) by (unfold n; lia).
  assert (Hlength : length (split cfg s) = Z.to_nat n)
    by (unfold split; rewrite length__split; f_equal; lia).
  destruct Hv as (_ & _ & HN & _ & _).
  split_and!.
  - intros Hpos. rewrite Hlength. lia.
  - intros Hneg. apply length_zero_iff_nil. rewrite Hlength. lia.
  - done.
  - intros i Hi. split.
    + unfold split. apply lookup__split; [done |]. lia.
    + unfold len at 1. rewrite length_substring; [lia |].
      unfold len in Hn. lia.
  - intros i Hi. apply lookup_ge_None. rewrite Hlength. lia.
Qed.

Lemma default_config_valid : valid default_config.
Proof.
  unfold valid, default_config; simpl. split_and!; (lra || lia || done).
Qed.

Lemma split_length_law_witness :
  valid default_config ∧
  Z.of_nat (length (split default_config "ham")) = 5.
Proof.
  split.
  - exact default_config_valid.
  - exact (proj1 (split_length_law default_config "ham" default_config_valid)
             ltac:(vm_compute; discriminate)).
Defined.

(** The examples of the docstrings of [pad], [_split] and [split]. *)
Example pad_ham : pad default_config "ham" = "$$ham$$".
Proof. reflexivity. Qed.

Example _split_hamegg :
  _split default_config "hamegg" = ["ham"; "ame"; "meg"; "egg"].
Proof. vm_compute. reflexivity. Qed.

Example split_ham :
  split default_config "ham" = ["$$h"; "$ha"; "ham"; "am$"; "m$$"].
Proof. vm_compute. reflexivity. Qed.


(** ** The accumulation loop of [items_sharing_ngrams] *)

(** Simplify, keeping [min] and the comparison of naturals folded. *)
Ltac arith_cbn := cbn -[Nat.min Nat.ltb].

(** A conjunction of equalities that fails in one component. *)
Ltac not_both := rewrite decide_False by (intros []; done).

Lemma occ_nil (g : string) : occ g [] = 0%nat.
Proof. done. Qed.

Lemma occ_snoc (g g' : string) (l : list string) :
  occ g (l ++ [g']) = (occ g l + if decide (g' = g) then 1 else 0)%nat.
Proof.
  unfold occ. rewrite filter_app, length_app. f_equal.
  rewrite filter_cons, filter_nil. by case_decide.
Qed.

Lemma occ_cons (g g' : string) (l : list string) :
  occ g (g' :: l) = ((if decide (g' = g) then 1 else 0) + occ g l)%nat.
Proof. unfold occ. rewrite filter_cons. by case_decide. Qed.


Lemma occ_zero (g : string) (l : list string) : occ g l = 0%nat ↔ g ∉ l.
Proof.
  induction l as [|x l IH].
  - rewrite occ_nil. split; [intros _ ?%not_elem_of_nil | done]. done.
  - rewrite occ_cons, not_elem_of_cons.
    case_decide; [split; [lia | intros []; done] |].
    rewrite IH. simpl.
    split; [intros ?; split; [congruence | done] | intros []; done].
Qed.

Lemma gram_count_insert (R : gmap string (gmap string nat))
    (g m g' m' : string) (v : nat) :
  gram_count (<[g := <[m := v]> (default ∅ (R !! g))]> R) g' m' =
  if decide (g = g' ∧ m = m') then Some v else gram_count R g' m'.
Proof.
  unfold gram_count. destruct (decide (g = g')) as [->|Hg].
  - rewrite lookup_insert_eq. destruct (decide (m = m')) as [->|Hm].
    + rewrite lookup_insert_eq. by rewrite decide_True.
    + rewrite lookup_insert_ne by done. not_both.
      by destruct (R !! g').
  - rewrite lookup_insert_ne by done. by not_both.
Qed.

Lemma credit_lookup (g : string)
    (acc : gmap string nat * gmap string (gmap string nat))
    (m0 : string) (c0 : nat) (g' m : string) :
  (credit g acc (m0, c0)).1 !! m =
    (if decide (m0 = m) then (after_credit {[m0 := c0]} g m acc).1
     else acc.1 !! m) ∧
  gram_count (credit g acc (m0, c0)).2 g' m =
    (if decide (g = g' ∧ m0 = m) then (after_credit {[m0 := c0]} g m acc).2
     else gram_count acc.2 g' m).
Proof.
  destruct acc as [sh rem]. unfold credit, after_credit; simpl.
  assert (default c0 (default ∅ (rem !! g) !! m0)
          = default c0 (gram_count rem g m0)) as Hr.
  { unfold gram_count. by destruct (rem !! g). }
  rewrite Hr. clear Hr.
  destruct (decide (m0 = m)) as [<-|Hm].
  - rewrite lookup_singleton_eq.
    destruct (0 <? default c0 (gram_count rem g m0))%nat; simpl.
    + rewrite lookup_insert_eq, gram_count_insert. split; [done |].
      by repeat case_decide.
    + rewrite gram_count_insert. split; [done |].
      by repeat case_decide.
  - destruct (0 <? default c0 (gram_count rem g m0))%nat; simpl.
    + rewrite lookup_insert_ne by done. rewrite gram_count_insert.
      split; [done |]. rewrite !decide_False by (intros []; done). done.
    + rewrite gram_count_insert.
      split; [done |]. rewrite !decide_False by (intros []; done). done.
Qed.

Lemma foldl_credit_lookup (g : string) (ml : list (string * nat)) :
  NoDup ml.*1 →
  ∀ (acc : gmap string nat * gmap string (gmap string nat)) (g' m : string),
    (foldl (credit g) acc ml).1 !! m
      = (after_credit (list_to_map ml) g m acc).1 ∧
    gram_count (foldl (credit g) acc ml).2 g' m
      = (if decide (g = g') then (after_credit (list_to_map ml) g m acc).2
         else gram_count acc.2 g' m).
Proof.
  induction ml as [|[m0 c0] ml IH]; intros Hnd acc g' m.
  - simpl. unfold after_credit. rewrite lookup_empty. simpl.
    split; [done | by case_decide; subst].
  - rewrite fmap_cons in Hnd. apply NoDup_cons in Hnd as [Hm0 Hnd].
    cbn [foldl list_to_map foldr uncurry fst snd].
    destruct (IH Hnd (credit g acc (m0, c0)) g' m) as [IH1 IH2].
    rewrite IH1, IH2. clear IH IH1 IH2.
    pose proof (credit_lookup g acc m0 c0 g m) as [C1 C2].
    pose proof (credit_lookup g acc m0 c0 g' m) as [_ C3].
    unfold after_credit in *. cbn [fst snd] in *. rewrite C1, C2.
    destruct (decide (m0 = m)) as [<-|Hm].
    + rewrite lookup_insert_eq.
      rewrite (not_elem_of_list_to_map_1 ml m0 Hm0).
      rewrite lookup_singleton_eq. rewrite decide_True by done.
      split; [done |]. destruct (decide (g = g')) as [Hg|Hg]; [done |].
      rewrite C3. by not_both.
    + rewrite lookup_insert_ne by done.
      not_both.
      split; [done |]. destruct (decide (g = g')) as [Hg|Hg]; [done |].
      rewrite C3. by not_both.
Qed.

Lemma sum_list_perm (l1 l2 : list nat) :
  l1 ≡ₚ l2 → sum_list l1 = sum_list l2.
Proof. induction 1; simpl; lia. Qed.


Lemma shared_count_delete (grams : gmap string (gmap string nat))
    (g : string) (sub : gmap string nat) (l : list string) (m : string) :
  grams !! g = Some sub →
  shared_count grams l m
  = (capped l m (g, sub) + shared_count (delete g grams) l m)%nat.
Proof.
  intros Hg. unfold shared_count.
  rewrite <- (sum_list_perm _ _
    (fmap_Permutation (capped l m) _ _ (map_to_list_delete grams g sub Hg))).
  done.
Qed.

Lemma shared_count_ext (grams : gmap string (gmap string nat))
    (l1 l2 : list string) (m : string) :
  (∀ g, is_Some (grams !! g) → occ g l1 = occ g l2) →
  shared_count grams l1 m = shared_count grams l2 m.
Proof.
  intros Hocc. unfold shared_count. f_equal.
  apply Forall_fmap_ext, Forall_forall. intros [g sub] Hin.
  apply elem_of_map_to_list in Hin. unfold capped. simpl.
  by rewrite (Hocc g) by eauto.
Qed.

(** The outer loop, for a fixed inverted index. *)
Section accumulation.
Context (grams : gmap string (gmap string nat)).

Lemma shared_count_snoc (pre : list string) (g m : string) :
  shared_count grams (pre ++ [g]) m
  = (shared_count grams pre m +
     match gram_count grams g m with
     | Some c => if (occ g pre <? c)%nat then 1 else 0
     | None => 0
     end)%nat.
Proof.
  unfold gram_count. destruct (grams !! g) as [sub|] eqn:Hg.
  - rewrite !(shared_count_delete grams g sub) by done.
    rewrite (shared_count_ext (delete g grams) (pre ++ [g]) pre).
    2:{ intros g' [x Hx]. rewrite occ_snoc.
        destruct (decide (g = g')) as [<-|]; [|lia].
        by rewrite lookup_delete_eq in Hx. }
    unfold capped. simpl. rewrite occ_snoc, decide_True by done.
    destruct (sub !! m) as [c|]; simpl.
    + destruct (Nat.ltb_spec (occ g pre) c); lia.
    + lia.
  - rewrite (shared_count_ext grams (pre ++ [g]) pre); [lia |].
    intros g' [x Hx]. rewrite occ_snoc.
    destruct (decide (g = g')) as [<-|]; [congruence | lia].
Qed.

Lemma sharing_inv_init :
  sharing_inv grams [] (∅, ∅).
Proof.
  split; simpl.
  - intros m. rewrite lookup_empty. unfold shared_count.
    rewrite (sum_list_fmap_same 0). { by rewrite Nat.mul_0_r. }
    apply Forall_forall. by intros [g sub] _.
  - done.
Qed.

Lemma sharing_inv_step (pre : list string)
    (acc : gmap string nat * gmap string (gmap string nat)) (g : string) :
  sharing_inv grams pre acc →
  sharing_inv grams (pre ++ [g]) (credit_ngram grams acc g).
Proof.
  intros [Hsh Hrem]. unfold credit_ngram.
  destruct (grams !! g) as [sub|] eqn:Hg.
  - assert (∀ g' m,
      (foldl (credit g) acc (map_to_list sub)).1 !! m
        = (after_credit sub g m acc).1 ∧
      gram_count (foldl (credit g) acc (map_to_list sub)).2 g' m
        = (if decide (g = g') then (after_credit sub g m acc).2
           else gram_count acc.2 g' m)) as Hfold.
    { intros g' m.
      pose proof (foldl_credit_lookup g (map_to_list sub)
                    (NoDup_fst_map_to_list sub) acc g' m) as H.
      by rewrite list_to_map_to_list in H. }
    assert (∀ m, gram_count grams g m = sub !! m) as Hgc
      by (intros m; unfold gram_count; by rewrite Hg).
    split.
    + intros m. destruct (Hfold g m) as [-> _].
      rewrite shared_count_snoc, Hgc. unfold after_credit.
      rewrite Hrem, Hgc, Hsh.
      destruct (sub !! m) as [c|] eqn:Hc; arith_cbn;
        [|by rewrite Nat.add_0_r].
      set (n := shared_count grams pre m).
      destruct (decide (occ g pre = 0%nat)) as [Hz|Hz]; arith_cbn.
      * rewrite Hz.
        destruct (Nat.ltb_spec 0 c); arith_cbn.
        -- unfold positive. destruct (decide (n = 0)%nat) as [->|];
             rewrite decide_False by lia; arith_cbn; f_equal; lia.
        -- by rewrite Nat.add_0_r.
      * destruct (Nat.ltb_spec 0 (c - occ g pre `min` c)%nat);
          destruct (Nat.ltb_spec (occ g pre) c); try lia; arith_cbn.
        -- unfold positive. destruct (decide (n = 0)%nat) as [->|];
             rewrite decide_False by lia; arith_cbn; f_equal; lia.
        -- by rewrite Nat.add_0_r.
    + intros g' m. destruct (Hfold g' m) as [_ ->].
      rewrite occ_snoc. destruct (decide (g = g')) as [<-|Hne].
      * rewrite decide_False by lia. unfold after_credit.
        rewrite Hrem, Hgc.
        destruct (sub !! m) as [c|] eqn:Hc; arith_cbn.
        -- destruct (decide (occ g pre = 0%nat)) as [Hz|Hz]; arith_cbn.
           ++ rewrite Hz.
              destruct (Nat.ltb_spec 0 c); arith_cbn; f_equal; lia.
           ++ destruct (Nat.ltb_spec 0 (c - occ g pre `min` c)%nat);
                arith_cbn; f_equal; lia.
        -- by case_decide.
      * rewrite Nat.add_0_r. apply Hrem.
  - split.
    + intros m. rewrite shared_count_snoc. unfold gram_count.
      rewrite Hg, Nat.add_0_r. apply Hsh.
    + intros g' m. rewrite Hrem, occ_snoc.
      destruct (decide (g = g')) as [<-|Hne].
      * unfold gram_count. rewrite Hg. arith_cbn. by repeat case_decide.
      * by rewrite Nat.add_0_r.
Qed.

Lemma sharing_inv_foldl (l pre : list string)
    (acc : gmap string nat * gmap string (gmap string nat)) :
  sharing_inv grams pre acc →
  sharing_inv grams (pre ++ l) (foldl (credit_ngram grams) acc l).
Proof.
  revert pre acc. induction l as [|g l IH]; intros pre acc Hinv; simpl.
  - by rewrite app_nil_r.
  - rewrite (cons_middle g pre l), app_assoc.
    by apply IH, sharing_inv_step.
Qed.

End accumulation.

(** The dictionary [items_sharing_ngrams] returns, entry by entry. *)
Lemma items_sharing_ngrams_lookup (cfg : config) (st : index)
    (query item : string) :
  items_sharing_ngrams cfg st query !! item
  = positive (shared_count (_grams st) (split cfg query) item).
Proof.
  unfold items_sharing_ngrams.
  pose proof (sharing_inv_foldl (_grams st) (split cfg query) [] (∅, ∅)
                (sharing_inv_init (_grams st))) as [H _].
  apply H.
Qed.

(** C5.  [items_sharing_ngrams] credits an item, for each n-gram, with the
    smaller of the number of times the query produces the n-gram and the
    number of times the inverted index records it for the item; an item
    whose total is zero has no entry.  An index built from "ham", "spam"
    and "eggs" with the default configuration answers the query "mam" with
    2 for "ham", 2 for "spam" and no entry for "eggs". *)
Theorem items_sharing_ngrams_capped :
  (∀ (cfg : config) (st : index) (query item : string),
     items_sharing_ngrams cfg st query !! item
     = positive (shared_count (_grams st) (split cfg query) item)) ∧
  (let st := update default_config ["ham"; "spam"; "eggs"] empty_index in
   items_sharing_ngrams default_config st "mam"
     = {[ "ham" := 2%nat; "spam" := 2%nat ]} ∧
   items_sharing_ngrams default_config st "mam" !! "eggs" = None).
Proof.
  split; [exact items_sharing_ngrams_lookup |].
  split; vm_compute; reflexivity.
Qed.

(** ** Consistency of the tables *)

(** The membership test of an item [m] other than the one added or removed
    has the outcome it had in [st]. *)
Ltac other_member m st :=
  destruct (decide (m ∈ members st));
  [rewrite decide_True by set_solver | rewrite decide_False by set_solver].

Lemma gram_count_incr (item : string) (grams : gmap string (gmap string nat))
    (ngram g m : string) :
  gram_count (incr_gram item grams ngram) g m
  = if decide (ngram = g ∧ item = m)
    then Some (S (default 0%nat (gram_count grams g m)))
    else gram_count grams g m.
Proof.
  unfold incr_gram. rewrite gram_count_insert.
  case_decide as Hd; [|done]. destruct Hd as [-> ->].
  unfold gram_count. by destruct (grams !! g).
Qed.

Lemma gram_count_foldl_incr (item : string) (l : list string)
    (grams : gmap string (gmap string nat)) (g m : string) :
  gram_count (foldl (incr_gram item) grams l) g m
  = if decide (item = m ∧ occ g l ≠ 0%nat)
    then Some (default 0 (gram_count grams g m) + occ g l)%nat
    else gram_count grams g m.
Proof.
  revert grams. induction l as [|x l IH]; intros grams; simpl.
  - rewrite decide_False; [done | intros [_ H]; by apply H].
  - rewrite IH, gram_count_incr, occ_cons.
    destruct (decide (item = m)) as [<-|Hm].
    + destruct (decide (x = g)) as [<-|Hx].
      * rewrite (decide_True (P := x = x ∧ item = item)) by done.
        rewrite (decide_True (P := item = item ∧ (1 + occ x l)%nat ≠ 0%nat))
          by (split; [done | lia]).
        destruct (decide (item = item ∧ occ x l ≠ 0%nat)) as [_|Hz];
          simpl; f_equal; [lia |].
        assert (occ x l = 0%nat) by (destruct (occ x l); [done |];
          exfalso; apply Hz; split; [done | lia]).
        lia.
      * rewrite (decide_False (P := x = g ∧ item = item))
          by (intros []; done).
        simpl. by repeat case_decide.
    + rewrite !decide_False by (intros []; done). done.
Qed.

Lemma consistent_empty (cfg : config) : consistent cfg empty_index.
Proof.
  split; simpl.
  - intros item. rewrite lookup_empty. by rewrite decide_False by set_solver.
  - intros g item. unfold gram_count. rewrite lookup_empty.
    by rewrite decide_False by set_solver.
Qed.

Lemma consistent_add (cfg : config) (item : string) (st : index) :
  consistent cfg st → consistent cfg (add cfg item st).
Proof.
  intros [Hlen Hgr]. unfold add.
  destruct (decide (item ∈ members st)) as [Hin|Hnin]; [done |].
  split; simpl.
  - intros m. destruct (decide (item = m)) as [<-|Hm].
    + rewrite lookup_insert_eq. by rewrite decide_True by set_solver.
    + rewrite lookup_insert_ne by done. rewrite Hlen.
      by other_member m st.
  - intros g m. rewrite gram_count_foldl_incr, Hgr.
    fold (split cfg (key cfg item)). fold (splititem cfg item).
    destruct (decide (item = m)) as [<-|Hm].
    + rewrite (decide_False (P := item ∈ members st)) by done.
      rewrite (decide_True (P := item ∈ {[item]} ∪ members st))
        by set_solver.
      unfold positive. simpl.
      destruct (decide (occ g (splititem cfg item) = 0%nat)).
      * rewrite decide_False; [done | intros []; done].
      * by rewrite decide_True.
    + rewrite (decide_False (P := item = m ∧ _)) by (intros []; done).
      by other_member m st.
Qed.

(** The loop of [remove] ends normally exactly when each deletion finds its
    entry, and then the entries of the item under the n-grams are gone. *)
Lemma del_grams_ok (item : string) (l : list string)
    (grams grams' : gmap string (gmap string nat)) :
  del_grams item l grams = (None, grams') →
  ∀ g m, gram_count grams' g m
         = if decide (item = m ∧ g ∈ l) then None else gram_count grams g m.
Proof.
  revert grams. induction l as [|x l IH]; intros grams Hdel g m; simpl in Hdel.
  - injection Hdel as <-. rewrite decide_False; [done |].
    intros [_ H]. by apply not_elem_of_nil in H.
  - destruct (grams !! x) as [sub|] eqn:Hx; [|done].
    destruct (sub !! item) as [c|] eqn:Hc; [|done].
    rewrite (IH _ Hdel g m).
    assert (gram_count (<[x:=delete item sub]> grams) g m
            = if decide (x = g ∧ item = m) then None
              else gram_count grams g m) as Hstep.
    { unfold gram_count. destruct (decide (x = g)) as [<-|Hg].
      - rewrite lookup_insert_eq, Hx. destruct (decide (item = m)) as [<-|Hm].
        + rewrite lookup_delete_eq. by rewrite decide_True.
        + rewrite lookup_delete_ne by done.
          by not_both.
      - rewrite lookup_insert_ne by done.
        by not_both. }
    rewrite Hstep. clear Hstep.
    destruct (decide (item = m ∧ g ∈ l)) as [[-> Hin]|Hn].
    + rewrite decide_True; [done |].
      split; [done | by apply elem_of_cons; right].
    + destruct (decide (x = g ∧ item = m)) as [[-> ->]|Hn'].
      * rewrite decide_True; [done |].
        split; [done | by apply elem_of_cons; left].
      * rewrite decide_False; [done |]. intros [-> [->|Hin]%elem_of_cons].
        -- by apply Hn'.
        -- by apply Hn.
Qed.

Lemma del_grams_nodup (item : string) (l : list string)
    (grams : gmap string (gmap string nat)) :
  NoDup l → (∀ g, g ∈ l → is_Some (gram_count grams g item)) →
  ∃ grams', del_grams item l grams = (None, grams').
Proof.
  revert grams. induction l as [|x l IH]; intros grams Hnd Hall; simpl.
  - by eexists.
  - apply NoDup_cons in Hnd as [Hx Hnd].
    destruct (Hall x) as [c Hc]; [by apply elem_of_cons; left |].
    unfold gram_count in Hc. destruct (grams !! x) as [sub|] eqn:Hgx; [|done].
    rewrite Hc. apply IH; [done |]. intros g Hg.
    unfold gram_count. rewrite lookup_insert_ne by (intros ->; done).
    apply Hall. by apply elem_of_cons; right.
Qed.

Lemma del_grams_dup (item : string) (l : list string)
    (grams : gmap string (gmap string nat)) :
  ¬ NoDup l → (del_grams item l grams).1 = Some KeyError.
Proof.
  revert grams. induction l as [|x l IH]; intros grams Hdup; simpl.
  - destruct Hdup. constructor.
  - destruct (grams !! x) as [sub|] eqn:Hgx; [|done].
    destruct (sub !! item) as [c|] eqn:Hc; [|done].
    destruct (decide (x ∈ l)) as [Hin|Hnin].
    + clear IH Hdup.
      assert (∀ grams0 : gmap string (gmap string nat),
                gram_count grams0 x item = None → x ∈ l →
                (del_grams item l grams0).1 = Some KeyError) as Hgen.
      { clear. induction l as [|y l IH]; intros grams0 Hnone Hin.
        - by apply not_elem_of_nil in Hin.
        - simpl. destruct (grams0 !! y) as [sub|] eqn:Hy; [|done].
          destruct (sub !! item) as [c|] eqn:Hc; [|done].
          apply elem_of_cons in Hin as [->|Hin].
          + unfold gram_count in Hnone. rewrite Hy in Hnone. congruence.
          + apply IH; [|done]. unfold gram_count.
            destruct (decide (y = x)) as [->|Hne].
            * rewrite lookup_insert_eq. unfold gram_count in Hnone.
              rewrite Hy in Hnone. congruence.
            * by rewrite lookup_insert_ne. }
      apply Hgen; [|done].
      unfold gram_count. by rewrite lookup_insert_eq, lookup_delete_eq.
    + apply IH. intros Hnd. apply Hdup. by constructor.
Qed.

Lemma consistent_remove (cfg : config) (item : string) (st st' : index) :
  consistent cfg st → remove cfg item st = (None, st') → consistent cfg st'.
Proof.
  intros [Hlen Hgr] Hrem. unfold remove in Hrem.
  destruct (decide (item ∈ members st)) as [Hin|Hnin];
    [|by injection Hrem as <-].
  destruct (lengths st !! item) as [n|] eqn:Hl; [|done].
  destruct (del_grams item (splititem cfg item) (_grams st))
    as [e grams'] eqn:Hdel.
  injection Hrem as -> <-. split; simpl.
  - intros m. destruct (decide (item = m)) as [<-|Hm].
    + rewrite lookup_delete_eq. by rewrite decide_False by set_solver.
    + rewrite lookup_delete_ne by done. rewrite Hlen.
      by other_member m st.
  - intros g m. rewrite (del_grams_ok _ _ _ _ Hdel), Hgr.
    destruct (decide (item = m)) as [<-|Hm].
    + rewrite (decide_False (P := item ∈ members st ∖ {[item]}))
        by set_solver.
      rewrite (decide_True (P := item ∈ members st)) by done.
      case_decide as Hd; [done |]. unfold positive.
      rewrite decide_True; [done |]. apply occ_zero. intros Hg. by apply Hd.
    + rewrite (decide_False (P := item = m ∧ _)) by (intros []; done).
      by other_member m st.
Qed.

Lemma reachable_consistent (cfg : config) (st : index) :
  reachable cfg st → consistent cfg st.
Proof.
  induction 1 as [|item st _ IH|item st st' _ IH Hrem].
  - apply consistent_empty.
  - by apply consistent_add.
  - by apply (consistent_remove cfg item st).
Qed.

Lemma reachable_update (cfg : config) (items : list string) (st : index) :
  reachable cfg st → reachable cfg (update cfg items st).
Proof.
  revert st. unfold update.
  induction items as [|x items IH]; intros st Hst; simpl; [done |].
  by apply IH, reachable_add.
Qed.

(** ** [add] followed by [remove] *)

(** When the n-grams of the item are pairwise distinct, [remove] undoes
    [add]: the base set and the length table are the ones before the
    [add], and so is every count of the inverted index (an n-gram of the
    item may keep an empty dictionary). *)
Lemma remove_add_distinct (cfg : config) (x : string) (st : index) :
  consistent cfg st → x ∉ members st → NoDup (splititem cfg x) →
  ∃ st', remove cfg x (add cfg x st) = (None, st') ∧
    members st' = members st ∧
    lengths st' = lengths st ∧
    ∀ g m, gram_count (_grams st') g m = gram_count (_grams st) g m.
Proof.
  intros [Hlen Hgr] Hx Hnd. unfold add. rewrite decide_False by done.
  unfold remove. cbn [members lengths _grams].
  rewrite decide_True by set_solver. rewrite lookup_insert_eq.
  fold (split cfg (key cfg x)). fold (splititem cfg x).
  destruct (del_grams_nodup x (splititem cfg x)
              (foldl (incr_gram x) (_grams st) (splititem cfg x)) Hnd)
    as [grams' Hdel].
  { intros g Hg. rewrite gram_count_foldl_incr.
    rewrite decide_True; [by eexists |].
    split; [done |]. intros Hz. by apply occ_zero in Hz. }
  rewrite Hdel. eexists. split; [done |]. cbn [members lengths _grams].
  split_and!.
  - set_solver.
  - apply delete_insert_id. rewrite Hlen. by rewrite decide_False.
  - intros g m. rewrite (del_grams_ok _ _ _ _ Hdel), gram_count_foldl_incr.
    destruct (decide (x = m)) as [<-|Hm].
    + destruct (decide (g ∈ splititem cfg x)) as [Hg|Hg].
      * rewrite decide_True by done. rewrite Hgr. by rewrite decide_False.
      * not_both.
        rewrite decide_False; [done |].
        intros [_ Hz]. apply Hz. by apply occ_zero.
    + by rewrite !decide_False by (intros []; done).
Qed.

(** When an n-gram occurs twice in the item, the second [del] of the loop
    of [remove] finds no entry and raises [KeyError]. *)
Lemma remove_add_repeated (cfg : config) (x : string) (st : index) :
  x ∉ members st → ¬ NoDup (splititem cfg x) →
  (remove cfg x (add cfg x st)).1 = Some KeyError.
Proof.
  intros Hx Hdup. unfold add. rewrite decide_False by done.
  unfold remove. cbn [members lengths _grams].
  rewrite decide_True by set_solver. rewrite lookup_insert_eq.
  fold (split cfg (key cfg x)). fold (splititem cfg x).
  pose proof (del_grams_dup x (splititem cfg x)
                (foldl (incr_gram x) (_grams st) (splititem cfg x)) Hdup) as H.
  by destruct (del_grams _ _ _) as [e grams'].
Qed.

(** C1, at the item "aaaa" with the default configuration and an empty
    index.  The padded item "$$aaaa$$" contains the n-gram "aaa" twice:
    [add] counts it twice under one entry, [remove] deletes that entry at
    the first occurrence and raises [KeyError] at the second.  The item has
    left the base set and the length table by then, but it is still
    recorded under the n-grams "aa$" and "a$$", which the index before the
    [add] did not contain. *)
Theorem remove_add_aaaa_not_restored :
  let st0 := empty_index in
  let st1 := add default_config "aaaa" st0 in
  let r := remove default_config "aaaa" st1 in
  ("aaaa" ∉ members st0) ∧
  splititem default_config "aaaa"
    = ["$$a"; "$aa"; "aaa"; "aaa"; "aa$"; "a$$"] ∧
  gram_count (_grams st1) "aaa" "aaaa" = Some 2%nat ∧
  r.1 = Some KeyError ∧
  members r.2 = members st0 ∧
  lengths r.2 = lengths st0 ∧
  gram_count (_grams st0) "aa$" "aaaa" = None ∧
  gram_count (_grams r.2) "aa$" "aaaa" = Some 1%nat ∧
  gram_count (_grams r.2) "a$$" "aaaa" = Some 1%nat.
Proof.
  split; [set_solver |].
  split_and!; vm_compute; reflexivity.
Qed.

(** ** Counting common n-grams *)

Lemma sum_list_indicator (x : string) (D : list string) :
  NoDup D →
  sum_list ((λ g, if decide (x = g) then 1 else 0)%nat <$> D)
  = if decide (x ∈ D) then 1%nat else 0%nat.
Proof.
  induction 1 as [|g D Hg Hnd IH]; csimpl.
  - by destruct (decide (x ∈ [])) as [?%not_elem_of_nil|].
  - rewrite IH. destruct (decide (x = g)) as [->|Hne].
    + rewrite (decide_False (P := g ∈ D)) by done.
      by rewrite decide_True by (apply elem_of_cons; by left).
    + destruct (decide (x ∈ D)).
      * by rewrite decide_True by (apply elem_of_cons; by right).
      * rewrite decide_False; [done |]. by intros [?|?]%elem_of_cons.
Qed.

Lemma sum_list_fmap_add {A} (f h : A → nat) (l : list A) :
  sum_list ((λ a, f a + h a)%nat <$> l)
  = (sum_list (f <$> l) + sum_list (h <$> l))%nat.
Proof. induction l as [|a l IH]; csimpl; lia. Qed.

Lemma sum_list_fmap_le {A} (f h : A → nat) (l : list A) :
  (∀ a, f a ≤ h a)%nat → (sum_list (f <$> l) ≤ sum_list (h <$> l))%nat.
Proof.
  intros Hle. induction l as [|a l IH]; csimpl; [lia |].
  specialize (Hle a). lia.
Qed.

Lemma sum_occ (D l : list string) :
  NoDup D →
  sum_list ((λ g, occ g l) <$> D) = length (filter (λ x, x ∈ D) l).
Proof.
  intros Hnd. induction l as [|x l IH].
  - simpl. rewrite (sum_list_fmap_same 0); [lia |].
    apply Forall_forall. by intros g _.
  - rewrite (Forall_fmap_ext_1 (λ g, occ g (x :: l))
               (λ g, (if decide (x = g) then 1 else 0) + occ g l)%nat).
    2:{ apply Forall_forall. intros g _. apply occ_cons. }
    rewrite sum_list_fmap_add, sum_list_indicator, IH by done.
    rewrite filter_cons. by case_decide.
Qed.

Lemma common_le_l (D l1 l2 : list string) :
  NoDup D → (common D l1 l2 ≤ length l1)%nat.
Proof.
  intros Hnd. unfold common.
  etrans; [apply (sum_list_fmap_le _ (λ g, occ g l1)); intros g; lia |].
  rewrite sum_occ by done. apply length_filter.
Qed.

Lemma common_comm (D l1 l2 : list string) : common D l1 l2 = common D l2 l1.
Proof.
  unfold common. f_equal. apply Forall_fmap_ext_1, Forall_forall.
  intros g _. lia.
Qed.

Lemma common_filter (D l1 l2 : list string) :
  common D l1 l2 = common (filter (λ g, g ∈ l1 ∧ g ∈ l2) D) l1 l2.
Proof.
  unfold common. induction D as [|g D IH]; [done |].
  rewrite filter_cons. case_decide as Hd; csimpl; [by rewrite IH |].
  rewrite <- IH.
  assert (occ g l1 = 0 ∨ occ g l2 = 0)%nat as Hz; [|lia].
  destruct (decide (g ∈ l1)) as [H1|H1]; [|left; by apply occ_zero].
  destruct (decide (g ∈ l2)) as [H2|H2]; [|right; by apply occ_zero].
  destruct Hd. by split.
Qed.

Lemma common_ext (D1 D2 l1 l2 : list string) :
  NoDup D1 → NoDup D2 →
  (∀ g, g ∈ l1 → g ∈ l2 → g ∈ D1) →
  (∀ g, g ∈ l1 → g ∈ l2 → g ∈ D2) →
  common D1 l1 l2 = common D2 l1 l2.
Proof.
  intros Hnd1 Hnd2 H1 H2.
  rewrite (common_filter D1), (common_filter D2). unfold common.
  apply sum_list_perm, fmap_Permutation, NoDup_Permutation.
  - by apply NoDup_filter.
  - by apply NoDup_filter.
  - intros g. rewrite !list_elem_of_filter. split.
    + intros [[Ha Hb] _]. split; [done | by apply H2].
    + intros [[Ha Hb] _]. split; [done | by apply H1].
Qed.

Lemma common_grams_comm (l1 l2 : list string) :
  common_grams l1 l2 = common_grams l2 l1.
Proof.
  unfold common_grams.
  rewrite (common_ext (remove_dups l1) (remove_dups l2) l1 l2).
  - apply common_comm.
  - apply NoDup_remove_dups.
  - apply NoDup_remove_dups.
  - intros g Hg _. by apply elem_of_remove_dups.
  - intros g _ Hg. by apply elem_of_remove_dups.
Qed.

Lemma common_grams_le_l (l1 l2 : list string) :
  (common_grams l1 l2 ≤ length l1)%nat.
Proof. apply common_le_l, NoDup_remove_dups. Qed.

Lemma common_grams_le_r (l1 l2 : list string) :
  (common_grams l1 l2 ≤ length l2)%nat.
Proof. rewrite common_grams_comm. apply common_grams_le_l. Qed.

Lemma filter_all {A} (P : A → Prop) `{∀ x, Decision (P x)} (l : list A) :
  Forall P l → filter P l = l.
Proof.
  induction 1 as [|x l Hx _ IH]; [done |].
  rewrite filter_cons, decide_True by done. by rewrite IH.
Qed.

Lemma common_grams_self (l : list string) : common_grams l l = length l.
Proof.
  unfold common_grams, common.
  rewrite (Forall_fmap_ext_1 _ (λ g, occ g l)).
  2:{ apply Forall_forall. intros g _. lia. }
  rewrite sum_occ by apply NoDup_remove_dups. f_equal.
  apply filter_all, Forall_forall. intros x Hx. by apply elem_of_remove_dups.
Qed.

(** ** Candidates of a consistent index *)

Lemma default_positive (n : nat) : default 0%nat (positive n) = n.
Proof. unfold positive. by case_decide. Qed.

Lemma positive_Some (n k : nat) : positive n = Some k → n = k ∧ (0 < k)%nat.
Proof. unfold positive. case_decide; [done |]. intros [= <-]. lia. Qed.

Lemma shared_count_common (grams : gmap string (gmap string nat))
    (lq lm : list string) (m : string) :
  (∀ g, gram_count grams g m = positive (occ g lm)) →
  shared_count grams lq m = common_grams lq lm.
Proof.
  intros Hgr.
  assert (shared_count grams lq m = common (map_to_list grams).*1 lq lm) as ->.
  { unfold shared_count, common. rewrite <- list_fmap_compose.
    f_equal. apply Forall_fmap_ext_1, Forall_forall.
    intros [g sub] Hin. apply elem_of_map_to_list in Hin.
    unfold capped, compose. simpl. do 2 f_equal.
    specialize (Hgr g). unfold gram_count in Hgr. rewrite Hin in Hgr.
    by rewrite Hgr, default_positive. }
  unfold common_grams. apply common_ext.
  - apply NoDup_fst_map_to_list.
  - apply NoDup_remove_dups.
  - intros g _ Hg. specialize (Hgr g). unfold gram_count in Hgr.
    destruct (grams !! g) as [sub|] eqn:Hsub.
    + apply list_elem_of_fmap. exists (g, sub).
      split; [done | by apply elem_of_map_to_list].
    + symmetry in Hgr. unfold positive in Hgr.
      case_decide as Hz; [|done]. by apply occ_zero in Hz.
  - intros g Hg _. by apply elem_of_remove_dups.
Qed.

Lemma shared_count_consistent (cfg : config) (st : index)
    (lq : list string) (m : string) :
  consistent cfg st →
  shared_count (_grams st) lq m
  = if decide (m ∈ members st) then common_grams lq (splititem cfg m)
    else 0%nat.
Proof.
  intros [_ Hgr]. case_decide as Hm.
  - apply shared_count_common. intros g. rewrite Hgr. by rewrite decide_True.
  - rewrite (shared_count_common _ lq [] m).
    + pose proof (common_grams_le_r lq []). simpl in *. lia.
    + intros g. rewrite Hgr. by rewrite decide_False.
Qed.

(** A candidate is an indexed item with a recorded length; its shared
    count is the number of n-grams it has in common with the query. *)
Lemma candidate_consistent (cfg : config) (st : index)
    (query item : string) (same : nat) :
  consistent cfg st →
  items_sharing_ngrams cfg st query !! item = Some same →
  item ∈ members st ∧
  lengths st !! item = Some (String.length (pad cfg (key cfg item))) ∧
  same = common_grams (split cfg query) (splititem cfg item) ∧
  (0 < same)%nat.
Proof.
  intros Hc Hlook. rewrite items_sharing_ngrams_lookup in Hlook.
  apply positive_Some in Hlook as [Hsame Hpos].
  rewrite (shared_count_consistent cfg) in Hsame by done.
  destruct (decide (item ∈ members st)) as [Hm|Hm]; [|lia].
  destruct Hc as [Hlen _]. split_and!; [done | | done | done].
  rewrite Hlen. by rewrite decide_True.
Qed.

(** The denominator of a candidate counts the n-grams of the query and of
    the item, the common ones once. *)
Lemma allgrams_of_common (cfg : config) (query item : string) :
  let lq := split cfg query in
  let lm := splititem cfg item in
  (0 < common_grams lq lm)%nat →
  allgrams_of cfg query (String.length (pad cfg (key cfg item)))
    (common_grams lq lm)
  = Z.of_nat (length lq) + Z.of_nat (length lm)
    - Z.of_nat (common_grams lq lm).
Proof.
  intros lq lm Hpos.
  pose proof (common_grams_le_l lq lm) as Hl.
  pose proof (common_grams_le_r lq lm) as Hr.
  unfold lq, lm, splititem, split in *. rewrite !length__split in *.
  unfold allgrams_of. fold (len (pad cfg (key cfg item))). lia.
Qed.

(** ** The score *)

Lemma rpow_pos (x w : R) : (0 < x)%R → (0 < rpow x w)%R.
Proof.
  intros Hx. unfold rpow. destruct (Req_dec_T x 0) as [->|_]; [lra |].
  unfold Rpower. apply exp_pos.
Qed.

Lemma float_pow_rpow (x w : R) :
  (0 <= x)%R → (0 < w)%R → float_pow x w = inr (rpow x w).
Proof.
  intros Hx Hw. unfold float_pow, rpow.
  destruct (Req_dec_T w 0) as [->|_]; [lra |].
  destruct (Req_dec_T x 0) as [->|Hne].
  - destruct (Rlt_dec w 0); [lra | done].
  - destruct (Rlt_dec 0 x); [done | lra].
Qed.

Lemma float_div_ok (x y : R) : y ≠ 0%R → float_div x y = inr (x / y)%R.
Proof. intros Hy. unfold float_div. by destruct (Req_dec_T y 0). Qed.

Lemma IZR_pos (a : Z) : 0 < a → (0 < IZR a)%R.
Proof. intros Ha. by apply IZR_lt. Qed.

(** On a positive denominator that is at least the shared count, and a
    positive warp, [_similarity] raises nothing and returns the score. *)
Lemma _similarity_score (s a : Z) (w : R) :
  0 < a → s ≤ a → (0 < w)%R → _similarity s a w = inr (score s a w).
Proof.
  intros Ha Hs Hw. pose proof (IZR_pos a Ha) as Ha'.
  unfold _similarity, score.
  destruct (Rlt_dec (Rabs (w - 1)) 1e-9) as [Hlin|Hlin].
  - apply float_div_ok. lra.
  - rewrite (float_pow_rpow (IZR a) w) by lra. simpl.
    rewrite (float_pow_rpow (IZR (a - s)) w);
      [|apply IZR_le; lia | done]. simpl.
    apply float_div_ok. pose proof (rpow_pos (IZR a) w Ha'). lra.
Qed.

Lemma Rpower_2 (x : R) : (0 < x)%R → Rpower x 2 = (x * x)%R.
Proof.
  intros Hx. replace 2%R with (INR 2) by (simpl; lra).
  rewrite Rpower_pow by done. simpl. lra.
Qed.

Lemma Rpower_3 (x : R) : (0 < x)%R → Rpower x 3 = (x * x * x)%R.
Proof.
  intros Hx. replace 3%R with (INR 3) by (simpl; lra).
  rewrite Rpower_pow by done. simpl. lra.
Qed.

Lemma score_self (n : Z) (w : R) : 0 < n → score n n w = 1%R.
Proof.
  intros Hn. pose proof (IZR_pos n Hn) as Hn'. unfold score.
  destruct (Rlt_dec (Rabs (w - 1)) 1e-9).
  - field. lra.
  - rewrite Z.sub_diag. pose proof (rpow_pos (IZR n) w Hn').
    unfold rpow at 2. destruct (Req_dec_T 0 0); [|done]. field. lra.
Qed.

(** ** The sort of [search] *)

Lemma insert_desc_perm (x : string * R) (l : list (string * R)) :
  insert_desc x l ≡ₚ x :: l.
Proof.
  induction l as [|y l IH]; simpl; [done |].
  destruct (Rlt_dec x.2 y.2); [|done].
  rewrite IH. apply Permutation_swap.
Qed.

Lemma sort_desc_perm (l : list (string * R)) : sort_desc l ≡ₚ l.
Proof.
  unfold sort_desc. induction l as [|x l IH]; simpl; [done |].
  by rewrite insert_desc_perm, IH.
Qed.

Lemma insert_desc_sorted (x : string * R) (l : list (string * R)) :
  StronglySorted ranked l → StronglySorted ranked (insert_desc x l).
Proof.
  induction 1 as [|y l Hs IH Hall]; simpl.
  - repeat constructor.
  - destruct (Rlt_dec x.2 y.2) as [Hlt|Hge].
    + constructor; [done |].
      rewrite insert_desc_perm. constructor; [|done].
      unfold ranked. lra.
    + constructor; [by constructor |].
      constructor; [unfold ranked; lra |].
      eapply Forall_impl; [exact Hall |].
      unfold ranked. intros z Hz. simpl in Hz. lra.
Qed.

Lemma sort_desc_sorted (l : list (string * R)) :
  StronglySorted ranked (sort_desc l).
Proof.
  unfold sort_desc. induction l as [|x l IH]; simpl; [constructor |].
  by apply insert_desc_sorted.
Qed.

Lemma ranked_lookup (l : list (string * R)) (i j : nat) (a b : string * R) :
  StronglySorted ranked l → (i < j)%nat →
  l !! i = Some a → l !! j = Some b → ranked a b.
Proof.
  intros Hs. revert i j.
  induction Hs as [|x l Hs IH Hall]; intros i j Hij Ha Hb.
  - by rewrite lookup_nil in Ha.
  - destruct j as [|j]; [lia |]. destruct i as [|i]; simpl in *.
    + injection Ha as <-. rewrite Forall_forall in Hall.
      apply Hall. by eapply list_elem_of_lookup_2.
    + apply (IH i j); [lia | done | done].
Qed.


(** ** The loop of [search] *)

Lemma Rleb_true (x y : R) : Rleb x y = true ↔ (x <= y)%R.
Proof. unfold Rleb. destruct (Rle_dec x y); naive_solver. Qed.

Lemma Rleb_false (x y : R) : (y < x)%R → Rleb x y = false.
Proof. intros Hlt. unfold Rleb. destruct (Rle_dec x y); [lra | done]. Qed.

(** The loop for a fixed index, query and threshold. *)
Section ranking.
Context (cfg : config) (st : index) (query : string) (t : R).

Lemma kept_nil (item : string) (sim : R) :
  ¬ kept cfg st query t [] item sim.
Proof. intros (same & l & Hin & _). by apply not_elem_of_nil in Hin. Qed.

Lemma kept_cons (ms : string * nat) (cands : list (string * nat))
    (item : string) (sim : R) :
  kept cfg st query t (ms :: cands) item sim ↔
  kept cfg st query t [ms] item sim ∨ kept cfg st query t cands item sim.
Proof.
  unfold kept. split.
  - intros (same & l & [Heq|Hin]%elem_of_cons & Hrest).
    + left. exists same, l. split; [by apply list_elem_of_singleton | done].
    + right. by exists same, l.
  - intros [(same & l & Hin%list_elem_of_singleton & Hrest)
           |(same & l & Hin & Hrest)];
      exists same, l; (split; [|done]); apply elem_of_cons; auto.
Qed.

Lemma foldl_search_step (cands : list (string * nat)) :
  (∀ ms, ms ∈ cands → ∃ l sim,
     lengths st !! ms.1 = Some l ∧
     _similarity (Z.of_nat ms.2) (allgrams_of cfg query l ms.2) (warp cfg)
       = inr sim) →
  ∀ acc, ∃ res,
    foldl (search_step cfg st query t) (inr acc) cands = inr (acc ++ res) ∧
    ∀ item sim, (item, sim) ∈ res ↔ kept cfg st query t cands item sim.
Proof.
  induction cands as [|[m same] cands IH]; intros Hok acc.
  - exists []. simpl. rewrite app_nil_r. split; [done |].
    intros item sim. split; [by intros ?%not_elem_of_nil |].
    by intros ?%kept_nil.
  - destruct (Hok (m, same)) as (l & sim0 & Hl & Hsim);
      [by apply elem_of_cons; left |]. simpl in Hl, Hsim.
    assert (∀ ms, ms ∈ cands → ∃ l sim,
              lengths st !! ms.1 = Some l ∧
              _similarity (Z.of_nat ms.2) (allgrams_of cfg query l ms.2)
                (warp cfg) = inr sim) as Hok'.
    { intros ms Hms. apply Hok. by apply elem_of_cons; right. }
    assert (∀ item sim, kept cfg st query t [(m, same)] item sim ↔
              item = m ∧ sim = sim0 ∧ (t <= sim0)%R) as Hone.
    { intros item sim. unfold kept. split.
      - intros (same' & l' & Hin%list_elem_of_singleton & Hl' & Hs' & Ht).
        injection Hin as -> ->. rewrite Hl in Hl'. injection Hl' as <-.
        rewrite Hsim in Hs'. injection Hs' as <-. done.
      - intros (-> & -> & Ht). exists same, l.
        split; [by apply list_elem_of_singleton | done]. }
    cbn [foldl]. unfold search_step at 2. cbn [bind fst snd].
    unfold get_item_length. rewrite Hl. cbn [bind ret]. rewrite Hsim.
    cbn [bind]. destruct (Rleb t sim0) eqn:Ht.
    + destruct (IH Hok' (acc ++ [(m, sim0)])) as (res & Hfold & Hres).
      exists ((m, sim0) :: res). unfold ret. rewrite Hfold.
      split; [by rewrite <- app_assoc |].
      intros item sim. rewrite kept_cons, Hone, elem_of_cons, Hres.
      apply Rleb_true in Ht. split.
      * intros [[= -> ->]|?]; [by left | by right].
      * intros [(-> & -> & _)|?]; [by left | by right].
    + destruct (IH Hok' acc) as (res & Hfold & Hres).
      exists res. unfold ret. rewrite Hfold. split; [done |].
      intros item sim. rewrite kept_cons, Hone, Hres.
      assert (¬ (t <= sim0)%R) as Hn.
      { intros Hle%Rleb_true. congruence. }
      split; [by right | by intros [(_ & _ & ?)|?]].
Qed.

Lemma foldl_search_step_no_fault (cands : list (string * nat)) :
  (∀ ms l, ms ∈ cands → lengths st !! ms.1 = Some l →
     _similarity (Z.of_nat ms.2) (allgrams_of cfg query l ms.2) (warp cfg)
     ≠ inl ZeroDivisionError) →
  ∀ acc, acc ≠ inl ZeroDivisionError →
    foldl (search_step cfg st query t) acc cands ≠ inl ZeroDivisionError.
Proof.
  induction cands as [|ms cands IH]; intros Hok acc Hacc; [done |].
  cbn [foldl]. apply IH.
  - intros ms' l Hin. apply Hok. by apply elem_of_cons; right.
  - unfold search_step. destruct acc as [e|results]; [done |]. cbn [bind].
    unfold get_item_length.
    destruct (lengths st !! ms.1) as [l|] eqn:Hl; [|done]. cbn [bind ret].
    pose proof (Hok ms l ltac:(by apply elem_of_cons; left) Hl) as Hsim.
    destruct (_similarity _ _ _) as [e|sim]; cbn [bind].
    + intros [= ->]. by apply Hsim.
    + by destruct (Rleb t sim).
Qed.

End ranking.

Lemma candidate_scored (cfg : config) (st : index) (query item : string)
    (same : nat) :
  valid cfg → consistent cfg st →
  items_sharing_ngrams cfg st query !! item = Some same →
  ∃ l, lengths st !! item = Some l ∧
    0 < allgrams_of cfg query l same ∧
    Z.of_nat same ≤ allgrams_of cfg query l same ∧
    _similarity (Z.of_nat same) (allgrams_of cfg query l same) (warp cfg)
      = inr (score (Z.of_nat same) (allgrams_of cfg query l same) (warp cfg)).
Proof.
  intros (_ & Hw & _) Hc Hlook.
  destruct (candidate_consistent cfg st query item same Hc Hlook)
    as (_ & Hl & -> & Hpos).
  eexists. split; [exact Hl |].
  rewrite (allgrams_of_common cfg query item Hpos).
  pose proof (common_grams_le_l (split cfg query) (splititem cfg item)).
  pose proof (common_grams_le_r (split cfg query) (splititem cfg item)).
  split_and!; [lia | lia |].
  apply _similarity_score; [lia | lia | lra].
Qed.

Lemma search_consistent (cfg : config) (st : index) (query : string)
    (thr : option R) :
  valid cfg → consistent cfg st →
  ∃ results, search cfg st query thr = inr results ∧
    (∀ item sim, (item, sim) ∈ results ↔
       kept cfg st query (default (threshold cfg) thr)
         (map_to_list (items_sharing_ngrams cfg st query)) item sim) ∧
    StronglySorted ranked results.
Proof.
  intros Hv Hc. unfold search.
  destruct (foldl_search_step cfg st query (default (threshold cfg) thr)
              (map_to_list (items_sharing_ngrams cfg st query)))
    with (acc := @nil (string * R)) as (res & Hfold & Hres).
  { intros [m same] Hin%elem_of_map_to_list.
    destruct (candidate_scored cfg st query m same Hv Hc Hin)
      as (l & Hl & _ & _ & Hsim).
    eexists l, _. split; [exact Hl | exact Hsim]. }
  unfold ret at 1. rewrite Hfold. cbn [bind app ret].
  eexists. split; [done |]. split; [|apply sort_desc_sorted].
  intros item sim. rewrite <- Hres.
  by rewrite (elem_of_Permutation_proper _ _ _ (sort_desc_perm res)).
Qed.

(** On an index reached by [add] and normally returning [remove] calls,
    [search] returns a list.  The threshold in
    force is the argument when one is given and the configured one
    otherwise.  A pair [(item, sim)] is in the list exactly when
    [items_sharing_ngrams] yields the item with some count [same], the
    score computed from [same] and the denominator
    [len(pad(query)) + length[item] - 2*N - same + 2] is [sim], and [sim]
    reaches the threshold.  The list is in non-increasing order of score. *)
Theorem search_ranked (cfg : config) (st : index) (query : string)
    (thr : option R) :
  valid cfg → reachable cfg st →
  let t := match thr with Some given => given | None => threshold cfg end in
  ∃ results, search cfg st query thr = inr results ∧
    (∀ item sim, (item, sim) ∈ results ↔
       ∃ same l,
         items_sharing_ngrams cfg st query !! item = Some same ∧
         lengths st !! item = Some l ∧
         _similarity (Z.of_nat same)
           (len (pad cfg query) + Z.of_nat l - 2 * N cfg - Z.of_nat same + 2)
           (warp cfg) = inr sim ∧
         (t <= sim)%R) ∧
    (∀ i j a b,
       (i < j)%nat → results !! i = Some a → results !! j = Some b →
       (b.2 <= a.2)%R).
Proof.
  intros Hv Hr t.
  destruct (search_consistent cfg st query thr Hv
              (reachable_consistent cfg st Hr)) as (results & Hs & Hk & Hsort).
  exists results. split; [done |]. split.
  - intros item sim. rewrite Hk. unfold kept.
    assert (t = default (threshold cfg) thr) as -> by by destruct thr.
    split; intros (same & l & Hin & Hrest); exists same, l;
      (split; [|done]); by apply elem_of_map_to_list.
  - intros i j a b Hij Ha Hb.
    apply (ranked_lookup results i j a b Hsort Hij Ha Hb).
Qed.

Lemma search_ranked_witness :
  valid default_config ∧
  reachable default_config (add default_config "ham" empty_index) ∧
  ∃ results,
    search default_config (add default_config "ham" empty_index) "spam" None
    = inr results.
Proof.
  pose proof (reachable_add default_config "ham" empty_index
                (reachable_empty default_config)) as Hr.
  split; [exact default_config_valid |]. split; [exact Hr |].
  destruct (search_ranked default_config _ "spam" None
              default_config_valid Hr) as (results & Hs & _).
  exists results. exact Hs.
Defined.

(** ** States left behind by a raising [remove] *)

Lemma search_search_in (cfg : config) (st : index) (query : string)
    (thr : option R) :
  search cfg st query thr
  = search_in cfg st query thr
      (map_to_list (items_sharing_ngrams cfg st query)).
Proof. reflexivity. Qed.

(** C3, on the index of "ham" and "aaaa" after [remove] of "aaaa" has
    raised [KeyError] (the defect of C1).  "aaaa" has left the set and the
    length table but is still recorded under "a$$", an n-gram of the query
    "ha".  "ham" shares two n-grams with the query, its denominator is
    [6 + 7 - 2*3 - 2 + 2 = 7] and its score 2/7 reaches the threshold 0,
    yet [search] returns no list: the candidate "aaaa" has no recorded
    length and [get_item_length] raises [KeyError], in whatever order the
    two candidates are taken. *)
Theorem search_raises_after_remove :
  let r := remove default_config "aaaa"
             (update default_config ["ham"; "aaaa"] empty_index) in
  r.1 = Some KeyError ∧
  attainable default_config r.2 ∧
  ("ham" ∈ members r.2) ∧
  items_sharing_ngrams default_config r.2 "ha" !! "ham" = Some 2%nat ∧
  get_item_length r.2 "ham" = inr 7%nat ∧
  _similarity 2 (len (pad default_config "ha") + 7 - 2 * N default_config
                 - 2 + 2) (warp default_config) = inr (2 / 7)%R ∧
  (threshold default_config <= 2 / 7)%R ∧
  items_sharing_ngrams default_config r.2 "ha" !! "aaaa" = Some 1%nat ∧
  get_item_length r.2 "aaaa" = inl KeyError ∧
  search default_config r.2 "ha" None = inl KeyError ∧
  ∀ cands,
    cands ≡ₚ map_to_list (items_sharing_ngrams default_config r.2 "ha") →
    search_in default_config r.2 "ha" None cands = inl KeyError.
Proof.
  intros r.
  assert (get_item_length r.2 "ham" = inr 7%nat) as Hham
    by (vm_compute; reflexivity).
  assert (get_item_length r.2 "aaaa" = inl KeyError) as Haaaa
    by (vm_compute; reflexivity).
  assert (map_to_list (items_sharing_ngrams default_config r.2 "ha")
          = [("aaaa", 1%nat); ("ham", 2%nat)]) as Hcands
    by (vm_compute; reflexivity).
  assert (_similarity 2 7 1 = inr (2 / 7)%R) as Hsim.
  { unfold _similarity. destruct (Rlt_dec (Rabs (1 - 1)) 1e-9) as [_|Hn].
    - by rewrite float_div_ok by lra.
    - destruct Hn. replace (1 - 1)%R with 0%R by lra. rewrite Rabs_R0. lra. }
  assert (∀ cands,
            cands ≡ₚ map_to_list (items_sharing_ngrams default_config r.2 "ha")
            → search_in default_config r.2 "ha" None cands = inl KeyError)
    as Hany.
  { intros cands Hperm. rewrite Hcands in Hperm. symmetry in Hperm.
    apply Permutation_length_2_inv in Hperm as [-> | ->];
      unfold search_in; cbn [foldl]; unfold search_step at 2;
      cbn [bind ret fst snd].
    - by rewrite Haaaa.
    - rewrite Hham. cbn [bind ret]. unfold allgrams_of.
      change (len (pad default_config "ha") + Z.of_nat 7
              - 2 * N default_config - Z.of_nat 2 + 2) with 7.
      change (Z.of_nat 2) with 2. change (warp default_config) with 1%R.
      rewrite Hsim. cbn [bind ret].
      destruct (Rleb _ _); unfold search_step; cbn [bind ret fst snd];
        by rewrite Haaaa. }
  split_and!.
  - vm_compute; reflexivity.
  - apply attainable_remove. simpl.
    apply attainable_add, attainable_add, attainable_empty.
  - vm_compute; reflexivity.
  - vm_compute; reflexivity.
  - exact Hham.
  - exact Hsim.
  - simpl. lra.
  - vm_compute; reflexivity.
  - exact Haaaa.
  - rewrite search_search_in. by apply Hany.
  - exact Hany.
Qed.

Lemma del_grams_sub (item : string) (l : list string)
    (grams : gmap string (gmap string nat)) (g m : string) (c : nat) :
  gram_count (del_grams item l grams).2 g m = Some c →
  gram_count grams g m = Some c.
Proof.
  revert grams. induction l as [|x l IH]; intros grams; simpl; [done |].
  destruct (grams !! x) as [sub|] eqn:Hx; [|done].
  destruct (sub !! item) as [c0|] eqn:Hc; [|done].
  intros H. apply IH in H. revert H. unfold gram_count.
  destruct (decide (x = g)) as [<-|Hg].
  - rewrite lookup_insert_eq, Hx. destruct (decide (item = m)) as [<-|Hm].
    + by rewrite lookup_delete_eq.
    + by rewrite lookup_delete_ne.
  - by rewrite lookup_insert_ne.
Qed.

Lemma recorded_empty (cfg : config) : recorded cfg empty_index.
Proof.
  split; simpl.
  - intros m l. by rewrite lookup_empty.
  - intros g m c. unfold gram_count. by rewrite lookup_empty.
Qed.

Lemma recorded_add (cfg : config) (item : string) (st : index) :
  recorded cfg st → recorded cfg (add cfg item st).
Proof.
  intros [Hlen Hgr]. unfold add.
  destruct (decide (item ∈ members st)) as [Hin|Hnin]; [done |]. split; simpl.
  - intros m l. destruct (decide (item = m)) as [<-|Hm].
    + rewrite lookup_insert_eq. by intros [= <-].
    + rewrite lookup_insert_ne by done. apply Hlen.
  - intros g m c. rewrite gram_count_foldl_incr.
    fold (split cfg (key cfg item)). fold (splititem cfg item).
    case_decide as Hd; [|apply Hgr].
    destruct Hd as [<- Hocc]. intros _.
    destruct (decide (g ∈ splititem cfg item)) as [|Hn]; [done |].
    by apply occ_zero in Hn.
Qed.

Lemma recorded_remove (cfg : config) (item : string) (st : index) :
  recorded cfg st → recorded cfg (remove cfg item st).2.
Proof.
  intros [Hlen Hgr]. unfold remove.
  destruct (decide (item ∈ members st)) as [Hin|Hnin]; [|done].
  destruct (lengths st !! item) as [n|] eqn:Hl; [|done].
  pose proof (del_grams_sub item (splititem cfg item) (_grams st)) as Hsub.
  destruct (del_grams item (splititem cfg item) (_grams st)) as [e grams'].
  split; simpl in *.
  - intros m l. destruct (decide (item = m)) as [<-|Hm].
    + by rewrite lookup_delete_eq.
    + rewrite lookup_delete_ne by done. apply Hlen.
  - intros g m c Hc. by apply (Hgr g m c), Hsub.
Qed.

Lemma attainable_recorded (cfg : config) (st : index) :
  attainable cfg st → recorded cfg st.
Proof.
  induction 1 as [|item st _ IH|item st _ IH].
  - apply recorded_empty.
  - by apply recorded_add.
  - by apply recorded_remove.
Qed.

Lemma reachable_attainable (cfg : config) (st : index) :
  reachable cfg st → attainable cfg st.
Proof.
  induction 1 as [|item st _ IH|item st st' _ IH Hrem].
  - constructor.
  - by constructor.
  - replace st' with (remove cfg item st).2 by by rewrite Hrem.
    by constructor.
Qed.

Lemma sum_list_pos {A} (f : A → nat) (l : list A) :
  (0 < sum_list (f <$> l))%nat → ∃ a, a ∈ l ∧ (0 < f a)%nat.
Proof.
  induction l as [|a l IH]; csimpl; [lia |]. intros Hpos.
  destruct (decide (0 < f a)%nat) as [Ha|Ha].
  - exists a. split; [by apply elem_of_cons; left | done].
  - destruct IH as (b & Hb & Hfb); [lia |].
    exists b. split; [by apply elem_of_cons; right | done].
Qed.

(** However the counts of the index stand, an item is credited at most
    once per n-gram of the query, and only through an entry of its own. *)
Lemma shared_count_le (grams : gmap string (gmap string nat))
    (lq : list string) (m : string) :
  (shared_count grams lq m ≤ length lq)%nat.
Proof.
  unfold shared_count.
  etrans; [apply (sum_list_fmap_le _ (λ en, occ en.1 lq));
           intros en; unfold capped; lia |].
  assert ((λ en : string * gmap string nat, occ en.1 lq) <$> map_to_list grams
          = (λ g, occ g lq) <$> (map_to_list grams).*1) as ->
    by (by rewrite <- list_fmap_compose).
  rewrite sum_occ by apply NoDup_fst_map_to_list. apply length_filter.
Qed.

Lemma shared_count_entry (grams : gmap string (gmap string nat))
    (lq : list string) (m : string) :
  (0 < shared_count grams lq m)%nat →
  ∃ g c, gram_count grams g m = Some c ∧ g ∈ lq.
Proof.
  intros Hpos. apply sum_list_pos in Hpos as ([g sub] & Hin & Hcap).
  apply elem_of_map_to_list in Hin. unfold capped in Hcap. simpl in Hcap.
  destruct (sub !! m) as [c|] eqn:Hc; simpl in Hcap; [|lia].
  exists g, c. split.
  - unfold gram_count. by rewrite Hin.
  - destruct (decide (g ∈ lq)) as [|Hn]; [done |].
    apply occ_zero in Hn. lia.
Qed.

Lemma candidate_recorded (cfg : config) (st : index) (query item : string)
    (same l : nat) :
  recorded cfg st →
  items_sharing_ngrams cfg st query !! item = Some same →
  lengths st !! item = Some l →
  0 < allgrams_of cfg query l same.
Proof.
  intros [Hlen Hgr] Hlook Hl. rewrite items_sharing_ngrams_lookup in Hlook.
  apply positive_Some in Hlook as [Hsame Hpos].
  pose proof (shared_count_le (_grams st) (split cfg query) item) as Hle.
  destruct (shared_count_entry (_grams st) (split cfg query) item)
    as (g & c & Hg & _); [lia |].
  apply Hgr in Hg. apply Hlen in Hl. subst l.
  assert (0 < length (splititem cfg item))%nat as Hitem.
  { destruct (splititem cfg item); [by apply not_elem_of_nil in Hg |].
    simpl. lia. }
  unfold splititem, split in *. rewrite length__split in *.
  unfold allgrams_of. fold (len (pad cfg (key cfg item))). lia.
Qed.

Lemma float_pow_no_fault (x w : R) :
  (0 < w)%R → float_pow x w ≠ inl ZeroDivisionError.
Proof.
  intros Hw. unfold float_pow.
  destruct (Req_dec_T w 0); [done |].
  destruct (Req_dec_T x 0); [by destruct (Rlt_dec w 0); [lra |] |].
  destruct (Rlt_dec 0 x); [done |].
  by destruct (Req_dec_T (IZR (Int_part w)) w).
Qed.

Lemma _similarity_no_fault (s a : Z) (w : R) :
  0 < a → (0 < w)%R → _similarity s a w ≠ inl ZeroDivisionError.
Proof.
  intros Ha Hw. pose proof (IZR_pos a Ha) as Ha'. unfold _similarity.
  destruct (Rlt_dec (Rabs (w - 1)) 1e-9).
  - rewrite float_div_ok by lra. done.
  - rewrite (float_pow_rpow (IZR a) w) by lra. cbn [bind].
    pose proof (float_pow_no_fault (IZR (a - s)) w Hw) as Hd.
    destruct (float_pow (IZR (a - s)) w) as [e|dw]; cbn [bind].
    + intros [= ->]. by apply Hd.
    + pose proof (rpow_pos (IZR a) w Ha').
      rewrite float_div_ok by lra. done.
Qed.


Lemma search_no_fault (cfg : config) (st : index) (query : string)
    (thr : option R) :
  valid cfg → recorded cfg st →
  search cfg st query thr ≠ inl ZeroDivisionError.
Proof.
  intros (_ & Hw & _) Hrec. unfold search.
  assert (foldl (search_step cfg st query (default (threshold cfg) thr))
            (ret []) (map_to_list (items_sharing_ngrams cfg st query))
          ≠ inl ZeroDivisionError) as Hfold.
  { apply foldl_search_step_no_fault; [|done].
    intros [m same] l Hin%elem_of_map_to_list Hl. simpl in *.
    apply _similarity_no_fault; [|lra].
    by apply (candidate_recorded cfg st query m same l). }
  destruct (foldl _ _ _) as [e|results]; cbn [bind]; [|done].
  intros [= ->]. by apply Hfold.
Qed.

(** C9.  In every state [add] and [remove] can leave the index in, each
    candidate of a query whose length is recorded has a positive
    denominator, so [search] never divides by a non-positive number and
    raises no [ZeroDivisionError]; on a reachable index every candidate
    has a recorded length and [search] returns normally.  A candidate with
    a non-positive denominator, of which there is none, is in no result. *)
Theorem search_denominator_positive (cfg : config) (st : index)
    (query : string) (thr : option R) :
  valid cfg → attainable cfg st →
  (∀ item same l,
     items_sharing_ngrams cfg st query !! item = Some same →
     get_item_length st item = inr l →
     0 < allgrams_of cfg query l same) ∧
  search cfg st query thr ≠ inl ZeroDivisionError ∧
  (reachable cfg st →
   (∀ item same,
      items_sharing_ngrams cfg st query !! item = Some same →
      ∃ l, get_item_length st item = inr l) ∧
   ∃ results, search cfg st query thr = inr results) ∧
  (∀ item same l results sim,
     items_sharing_ngrams cfg st query !! item = Some same →
     get_item_length st item = inr l →
     allgrams_of cfg query l same ≤ 0 →
     search cfg st query thr = inr results →
     (item, sim) ∉ results).
Proof.
  intros Hv Hatt. pose proof (attainable_recorded cfg st Hatt) as Hrec.
  assert (∀ item same l,
            items_sharing_ngrams cfg st query !! item = Some same →
            get_item_length st item = inr l →
            0 < allgrams_of cfg query l same) as Hpos.
  { intros item same l Hlook Hl. unfold get_item_length in Hl.
    destruct (lengths st !! item) as [l'|] eqn:Hl'; [|done].
    injection Hl as <-.
    by apply (candidate_recorded cfg st query item same l'). }
  split_and!.
  - exact Hpos.
  - by apply search_no_fault.
  - intros Hr. pose proof (reachable_consistent cfg st Hr) as Hc. split.
    + intros item same Hlook.
      destruct (candidate_scored cfg st query item same Hv Hc Hlook)
        as (l & Hl & _).
      exists l. unfold get_item_length. by rewrite Hl.
    + destruct (search_consistent cfg st query thr Hv Hc)
        as (results & Hs & _).
      by exists results.
  - intros item same l results sim Hlook Hl Hle _ _.
    specialize (Hpos item same l Hlook Hl). lia.
Qed.

Lemma search_denominator_positive_witness :
  valid default_config ∧
  attainable default_config
    (remove default_config "aaaa"
       (update default_config ["ham"; "aaaa"] empty_index)).2 ∧
  search default_config
    (remove default_config "aaaa"
       (update default_config ["ham"; "aaaa"] empty_index)).2
    "mam" None ≠ inl ZeroDivisionError.
Proof.
  assert (attainable default_config
            (remove default_config "aaaa"
               (update default_config ["ham"; "aaaa"] empty_index)).2) as Ha.
  { apply attainable_remove. simpl.
    apply attainable_add, attainable_add, attainable_empty. }
  split; [exact default_config_valid |]. split; [exact Ha |].
  exact (proj1 (proj2 (search_denominator_positive default_config _ "mam" None
                         default_config_valid Ha))).
Defined.

(** ** An index of one item *)

Lemma update_single (cfg : config) (x : string) :
  update cfg [x] empty_index = add cfg x empty_index.
Proof. done. Qed.

Lemma consistent_single (cfg : config) (x : string) :
  consistent cfg (add cfg x empty_index).
Proof. apply consistent_add, consistent_empty. Qed.

Lemma members_single (cfg : config) (x : string) :
  members (add cfg x empty_index) = {[x]}.
Proof.
  unfold add. rewrite decide_False by set_solver. simpl. set_solver.
Qed.

Lemma items_sharing_single (cfg : config) (x q : string) :
  items_sharing_ngrams cfg (add cfg x empty_index) q
  = let c := common_grams (split cfg q) (splititem cfg x) in
    if decide (c = 0%nat) then ∅ else {[x := c]}.
Proof.
  apply map_eq. intros m. rewrite items_sharing_ngrams_lookup.
  rewrite (shared_count_consistent cfg) by apply consistent_single.
  rewrite members_single. cbn zeta. unfold positive.
  destruct (decide (m = x)) as [->|Hm].
  - rewrite (decide_True (P := x ∈ {[x]})) by set_solver.
    case_decide; [by rewrite lookup_empty | by rewrite lookup_singleton_eq].
  - rewrite (decide_False (P := m ∈ {[x]})) by set_solver.
    rewrite decide_True by done.
    case_decide; [by rewrite lookup_empty |].
    by rewrite lookup_singleton_ne.
Qed.

(** What [search] returns on the index of the single item [x]. *)
Lemma search_single (cfg : config) (x q : string) (thr : option R) :
  valid cfg →
  search cfg (add cfg x empty_index) q thr
  = inr (let c := common_grams (split cfg q) (splititem cfg x) in
         let a := Z.of_nat (length (split cfg q))
                  + Z.of_nat (length (splititem cfg x)) - Z.of_nat c in
         let sim := score (Z.of_nat c) a (warp cfg) in
         if decide (c = 0%nat) then []
         else if Rleb (default (threshold cfg) thr) sim then [(x, sim)]
         else []).
Proof.
  intros Hv. unfold search. rewrite items_sharing_single. cbn zeta.
  set (c := common_grams (split cfg q) (splititem cfg x)).
  destruct (decide (c = 0%nat)) as [Hz|Hz].
  - by rewrite map_to_list_empty.
  - rewrite map_to_list_singleton. cbn [foldl].
    unfold search_step. cbn [bind ret fst snd].
    destruct (consistent_single cfg x) as [Hlen _].
    unfold get_item_length. rewrite Hlen, members_single.
    rewrite decide_True by set_solver. cbn [bind ret].
    unfold c. rewrite allgrams_of_common by (fold c; lia). fold c.
    pose proof (common_grams_le_l (split cfg q) (splititem cfg x)).
    pose proof (common_grams_le_r (split cfg q) (splititem cfg x)).
    destruct Hv as (_ & Hw & _).
    rewrite _similarity_score by (fold c; lia || lra). cbn [bind].
    by destruct (Rleb _ _).
Qed.



(** ** Construction *)


Lemma raise_ValueError_fails {A} (s : string) (v : pyval) :
  ∃ e, @raise_ValueError A s v = inl e.
Proof. destruct v as [|[]| | |]; by eexists. Qed.

(** [__init__] stores a configuration only for arguments that meet the
    listed conditions, and the configuration has passed every check. *)
Lemma init_valid (a : init_args) (cfg : config) :
  init a = inr cfg →
  args_ok a ∧ valid cfg ∧ (arg_key a = PyNone → _key cfg = None).
Proof.
  unfold init, args_ok.
  destruct (Rleb 0 (num_val (arg_threshold a))) eqn:Ht0; simpl.
  2:{ destruct (raise_ValueError_fails (A := config)
        "Threshold outside 0.0 to 1.0 range: " (PyNum (arg_threshold a)))
        as [e ->]. done. }
  destruct (Rleb (num_val (arg_threshold a)) 1) eqn:Ht1; simpl.
  2:{ destruct (raise_ValueError_fails (A := config)
        "Threshold outside 0.0 to 1.0 range: " (PyNum (arg_threshold a)))
        as [e ->]. done. }
  destruct (Rleb 1 (num_val (arg_warp a))) eqn:Hw1; simpl.
  2:{ destruct (raise_ValueError_fails (A := config)
        "Warp outside 1.0 to 3.0 range: " (PyNum (arg_warp a)))
        as [e ->]. done. }
  destruct (Rleb (num_val (arg_warp a)) 3) eqn:Hw3; simpl.
  2:{ destruct (raise_ValueError_fails (A := config)
        "Warp outside 1.0 to 3.0 range: " (PyNum (arg_warp a)))
        as [e ->]. done. }
  destruct (Z.leb_spec 1 (arg_N a)) as [HN|HN]; simpl; [|done].
  set (pad_len := default (arg_N a - 1) (arg_pad_len a)).
  destruct (Z.leb_spec 0 pad_len) as [Hp0|Hp0]; simpl; [|done].
  destruct (Z.ltb_spec pad_len (arg_N a)) as [Hp1|Hp1]; simpl; [|done].
  destruct (arg_pad_char a) as [|n|pad_char|f|t] eqn:Hpc; try done.
  destruct (Nat.eqb_spec (String.length pad_char) 1) as [Hc|Hc]; simpl;
    [|done].
  apply Rleb_true in Ht0, Ht1, Hw1, Hw3.
  destruct (arg_key a) as [|n|s|f|t] eqn:Hk; try done.
  - intros [= <-]. unfold valid. simpl. split_and!; eauto.
  - intros [= <-]. unfold valid. simpl. split_and!; eauto. done.
Qed.

(** Arguments that meet the conditions are accepted. *)
Lemma init_accepts (a : init_args) :
  args_ok a → ∃ cfg, init a = inr cfg.
Proof.
  intros ([Ht0 Ht1] & [Hw1 Hw3] & HN & [Hp0 Hp1] & (c & Hc & Hlen) & Hkey).
  unfold init.
  rewrite !(proj2 (Rleb_true _ _)) by done. cbn [andb negb].
  destruct (Z.leb_spec 1 (arg_N a)); [|lia]. cbn [negb].
  destruct (Z.leb_spec 0 (default (arg_N a - 1) (arg_pad_len a))); [|lia].
  destruct (Z.ltb_spec (default (arg_N a - 1) (arg_pad_len a)) (arg_N a));
    [|lia].
  cbn [andb negb]. rewrite Hc, Hlen. cbn [Nat.eqb negb].
  destruct Hkey as [->|[f ->]]; by eexists.
Qed.

(** Arguments that break a condition end the construction with an
    exception, before [update] is reached. *)
Lemma NGram_new_rejects (items : list string) (a : init_args) :
  ¬ args_ok a → ∃ e, NGram_new items a = inl e.
Proof.
  intros Hbad. unfold NGram_new.
  destruct (init a) as [e|cfg] eqn:Hinit; [by exists e |].
  destruct Hbad. by apply (init_valid a cfg).
Qed.

(** The exception for a number that fails its check is the [TypeError] of
    the message concatenation. *)
Lemma init_threshold_TypeError (a : init_args) :
  ¬ (0 <= num_val (arg_threshold a) <= 1)%R →
  ∃ msg, init a = inl (TypeError msg).
Proof.
  intros Hbad. unfold init.
  assert (Rleb 0 (num_val (arg_threshold a))
          && Rleb (num_val (arg_threshold a)) 1 = false) as ->.
  { apply andb_false_iff.
    destruct (Rle_dec 0 (num_val (arg_threshold a))) as [H0|H0];
      [right | left]; apply Rleb_false; lra. }
  cbn [negb]. destruct (arg_threshold a); by eexists.
Qed.

(** C10.  Without a key function the one-shot comparison is symmetric in
    its two strings, whatever the other keyword arguments are: both calls
    fail the same check, or both count the same common n-grams over the
    same denominator and return the same score. *)
Theorem compare_symmetric (s1 s2 : string) (kwargs : init_args) :
  arg_key kwargs = PyNone →
  compare (Some s1) (Some s2) kwargs = compare (Some s2) (Some s1) kwargs ∧
  ∀ cfg, init kwargs = inr cfg →
    items_sharing_ngrams cfg (update cfg [s1] empty_index) s2 !! s1
    = items_sharing_ngrams cfg (update cfg [s2] empty_index) s1 !! s2 ∧
    items_sharing_ngrams cfg (update cfg [s1] empty_index) s2 !! s1
    = positive (common_grams (split cfg s1) (split cfg s2)).
Proof.
  intros Hkey.
  assert (∀ cfg, init kwargs = inr cfg →
            valid cfg ∧ ∀ s, splititem cfg s = split cfg s) as Hcfg.
  { intros cfg Hinit. destruct (init_valid kwargs cfg Hinit) as (_ & Hv & Hk).
    split; [done |]. intros s. unfold splititem, key. by rewrite (Hk Hkey). }
  split.
  - unfold compare, NGram_new.
    destruct (init kwargs) as [e|cfg] eqn:Hinit; [done |].
    destruct (Hcfg cfg eq_refl) as [Hv Hsplit].
    cbn [bind ret fst snd]. rewrite !update_single.
    rewrite !search_single by done. cbn [bind ret]. cbn zeta.
    rewrite !Hsplit.
    rewrite (common_grams_comm (split cfg s1) (split cfg s2)).
    rewrite (Z.add_comm (Z.of_nat (length (split cfg s1)))).
    destruct (decide _); [done |]. by destruct (Rleb _ _).
  - intros cfg Hinit. destruct (Hcfg cfg Hinit) as [Hv Hsplit].
    rewrite !update_single, !items_sharing_single. cbn zeta.
    rewrite !Hsplit.
    rewrite (common_grams_comm (split cfg s2) (split cfg s1)).
    unfold positive. split.
    + case_decide; [by rewrite !lookup_empty |].
      by rewrite !lookup_singleton_eq.
    + case_decide; [by rewrite !lookup_empty |].
      by rewrite !lookup_singleton_eq.
Qed.

Lemma compare_symmetric_witness :
  arg_key default_args = PyNone ∧
  compare (Some "spam") (Some "pam") default_args
  = compare (Some "pam") (Some "spam") default_args.
Proof.
  split; [reflexivity |].
  exact (proj1 (compare_symmetric "spam" "pam" default_args eq_refl)).
Defined.

(** The examples of the docstring of [compare]. *)
Lemma init_default : init default_args = inr default_config.
Proof.
  unfold init, default_args. cbn [arg_threshold arg_warp num_val].
  rewrite !(proj2 (Rleb_true _ _)) by lra. reflexivity.
Qed.

Lemma compare_default (s1 s2 : string) (c : nat) :
  common_grams (split default_config s2) (split default_config s1) = S c →
  compare (Some s1) (Some s2) default_args
  = inr (IZR (Z.of_nat (S c))
         / IZR (Z.of_nat (length (split default_config s2))
                + Z.of_nat (length (split default_config s1))
                - Z.of_nat (S c)))%R.
Proof.
  intros Hc. unfold compare, NGram_new. rewrite init_default.
  cbn [bind ret fst snd]. rewrite update_single.
  rewrite search_single by apply default_config_valid. cbn zeta.
  change (splititem default_config s1) with (split default_config s1).
  rewrite Hc. rewrite decide_False by lia.
  assert (∀ s a, score s a (warp default_config) = (IZR s / IZR a)%R) as Hsc.
  { intros s a. unfold score. simpl.
    destruct (Rlt_dec (Rabs (1 - 1)) 1e-9) as [_|Hn]; [done |].
    destruct Hn. replace (1 - 1)%R with 0%R by lra. rewrite Rabs_R0. lra. }
  rewrite Hsc.
  assert (0 <= IZR (Z.of_nat (S c))
               / IZR (Z.of_nat (length (split default_config s2))
                      + Z.of_nat (length (split default_config s1))
                      - Z.of_nat (S c)))%R as Hpos.
  { pose proof (common_grams_le_l (split default_config s2)
                  (split default_config s1)).
    pose proof (common_grams_le_r (split default_config s2)
                  (split default_config s1)).
    rewrite Hc in *.
    apply Rlt_le, Rdiv_lt_0_compat; apply (IZR_lt 0); lia. }
  cbn [default threshold default_config].
  by rewrite (proj2 (Rleb_true _ _)) by exact Hpos.
Qed.

Example compare_spa_spam :
  compare (Some "spa") (Some "spam") default_args = inr 0.375%R.
Proof.
  rewrite (compare_default "spa" "spam" 2) by (vm_compute; reflexivity).
  replace (length (split default_config "spam")) with 6%nat
    by (vm_compute; reflexivity).
  replace (length (split default_config "spa")) with 5%nat
    by (vm_compute; reflexivity).
  f_equal. change (Z.of_nat 6 + Z.of_nat 5 - Z.of_nat 3) with 8.
  change (Z.of_nat 3) with 3. lra.
Qed.

Example compare_ham_bam :
  compare (Some "ham") (Some "bam") default_args = inr 0.25%R.
Proof.
  rewrite (compare_default "ham" "bam" 1) by (vm_compute; reflexivity).
  replace (length (split default_config "bam")) with 5%nat
    by (vm_compute; reflexivity).
  replace (length (split default_config "ham")) with 5%nat
    by (vm_compute; reflexivity).
  f_equal. change (Z.of_nat 5 + Z.of_nat 5 - Z.of_nat 2) with 8.
  change (Z.of_nat 2) with 2. lra.
Qed.


Lemma Rleb_true_2 (x y : R) : (x <= y)%R → Rleb x y = true.
Proof. apply Rleb_true. Qed.

(** A construction whose arguments fail a check adds no item: it raises
    before [update] runs. *)
Lemma NGram_new_invalid (items : list string) (a : init_args) (e : exn) :
  init a = inl e → NGram_new items a = inl e.
Proof. intros Hinit. unfold NGram_new. by rewrite Hinit. Qed.

(** C2, at arguments that fail a check.  A threshold of 1.5, a warp of 4,
    an [N] of 0 and a [pad_len] of 3 each end the construction before any
    item is added, but with the [TypeError] of the concatenation that was
    to build the message, not with a [ValueError] that names the parameter
    and its value; the message is built only when the offending value is a
    string, as for the [pad_char] "ab". *)
Theorem init_numeric_check_raises_TypeError :
  NGram_new ["ham"]
    {| arg_threshold := PFloat 1.5; arg_warp := PFloat 1; arg_N := 3;
       arg_pad_len := None; arg_pad_char := PyStr "$"; arg_key := PyNone |}
    = inl (TypeError "cannot concatenate 'str' and 'float' objects") ∧
  NGram_new ["ham"]
    {| arg_threshold := PFloat 0; arg_warp := PInt 4; arg_N := 3;
       arg_pad_len := None; arg_pad_char := PyStr "$"; arg_key := PyNone |}
    = inl (TypeError "cannot concatenate 'str' and 'int' objects") ∧
  NGram_new ["ham"]
    {| arg_threshold := PFloat 0; arg_warp := PFloat 1; arg_N := 0;
       arg_pad_len := None; arg_pad_char := PyStr "$"; arg_key := PyNone |}
    = inl (TypeError "cannot concatenate 'str' and 'int' objects") ∧
  NGram_new ["ham"]
    {| arg_threshold := PFloat 0; arg_warp := PFloat 1; arg_N := 3;
       arg_pad_len := Some 3; arg_pad_char := PyStr "$"; arg_key := PyNone |}
    = inl (TypeError "cannot concatenate 'str' and 'int' objects") ∧
  NGram_new ["ham"]
    {| arg_threshold := PFloat 0; arg_warp := PFloat 1; arg_N := 3;
       arg_pad_len := None; arg_pad_char := PyStr "ab"; arg_key := PyNone |}
    = inl (ValueError "pad_char not single-character string: ab").
Proof.
  split_and!; apply NGram_new_invalid; unfold init;
    cbn [arg_threshold arg_warp arg_N arg_pad_len arg_pad_char arg_key num_val].
  - rewrite (Rleb_false 1.5 1) by lra. by destruct (Rleb 0 1.5).
  - rewrite !Rleb_true_2 by lra. cbn [andb negb].
    by rewrite (Rleb_false 4 3) by lra.
  - rewrite !Rleb_true_2 by lra. done.
  - rewrite !Rleb_true_2 by lra. done.
  - rewrite !Rleb_true_2 by lra. done.
Qed.

(** ** The similarity formula *)

(** C4.  For a positive denominator and a warp between 1 and 3,
    [_similarity] returns the ratio [same / all] when the warp is within
    [1e-9] of one, and otherwise [(all^w - d^w) / all^w] with
    [d = all - same]: with the power of the language for [d^w], which
    raises on a negative [d] with a fractional warp, and hence with the
    real power whenever [same <= all].  At 5 out of 10 the result is 0.5
    for warp 1, 0.75 for warp 2 and 0.875 for warp 3. *)
Theorem similarity_formula :
  (∀ (s a : Z) (w : R), 0 < a → (1 <= w <= 3)%R →
     ((Rabs (w - 1) < 1e-9)%R →
        _similarity s a w = inr (IZR s / IZR a)%R) ∧
     (¬ (Rabs (w - 1) < 1e-9)%R →
        _similarity s a w
        = (let* dw := float_pow (IZR (a - s)) w in
           ret ((Rpower (IZR a) w - dw) / Rpower (IZR a) w)%R) ∧
        (s ≤ a →
         _similarity s a w
         = inr ((rpow (IZR a) w - rpow (IZR (a - s)) w)
                / rpow (IZR a) w)%R))) ∧
  _similarity 5 10 1 = inr 0.5%R ∧
  _similarity 5 10 2 = inr 0.75%R ∧
  _similarity 5 10 3 = inr 0.875%R.
Proof.
  assert (∀ (s a : Z) (w : R), 0 < a → (1 <= w <= 3)%R →
     ((Rabs (w - 1) < 1e-9)%R →
        _similarity s a w = inr (IZR s / IZR a)%R) ∧
     (¬ (Rabs (w - 1) < 1e-9)%R →
        _similarity s a w
        = (let* dw := float_pow (IZR (a - s)) w in
           ret ((Rpower (IZR a) w - dw) / Rpower (IZR a) w)%R) ∧
        (s ≤ a →
         _similarity s a w
         = inr ((rpow (IZR a) w - rpow (IZR (a - s)) w)
                / rpow (IZR a) w)%R))) as Hgen.
  { intros s a w Ha Hw. pose proof (IZR_pos a Ha) as Ha'.
    assert (rpow (IZR a) w = Rpower (IZR a) w) as Hrp.
    { unfold rpow. destruct (Req_dec_T (IZR a) 0); [lra | done]. }
    pose proof (rpow_pos (IZR a) w Ha') as Hpos. rewrite Hrp in Hpos.
    split.
    - intros Hlin. unfold _similarity.
      destruct (Rlt_dec (Rabs (w - 1)) 1e-9); [|done].
      apply float_div_ok. lra.
    - intros Hnl. split.
      + unfold _similarity.
        destruct (Rlt_dec (Rabs (w - 1)) 1e-9); [done |].
        rewrite (float_pow_rpow (IZR a) w) by lra. rewrite Hrp.
        cbn [bind].
        destruct (float_pow (IZR (a - s)) w) as [e|dw]; [done |].
        cbn [bind]. apply float_div_ok. lra.
      + intros Hs. rewrite _similarity_score by (lia || lra).
        unfold score. by destruct (Rlt_dec (Rabs (w - 1)) 1e-9). }
  split; [exact Hgen |].
  split_and!.
  - destruct (Hgen 5 10 1%R) as [H _]; [lia | lra |].
    rewrite H; [f_equal; lra |].
    replace (1 - 1)%R with 0%R by lra. rewrite Rabs_R0. lra.
  - destruct (Hgen 5 10 2%R) as [_ H]; [lia | lra |].
    destruct H as [_ H].
    { replace (2 - 1)%R with 1%R by lra. rewrite Rabs_R1. lra. }
    rewrite H by lia. f_equal. change (10 - 5) with 5. unfold rpow.
    destruct (Req_dec_T 10 0); [lra |].
    destruct (Req_dec_T 5 0); [lra |].
    rewrite !Rpower_2 by lra. lra.
  - destruct (Hgen 5 10 3%R) as [_ H]; [lia | lra |].
    destruct H as [_ H].
    { replace (3 - 1)%R with 2%R by lra.
      rewrite Rabs_right by lra. lra. }
    rewrite H by lia. f_equal. change (10 - 5) with 5. unfold rpow.
    destruct (Req_dec_T 10 0); [lra |].
    destruct (Req_dec_T 5 0); [lra |].
    rewrite !Rpower_3 by lra. lra.
Qed.

Lemma similarity_formula_witness :
  0 < 4 ∧ (1 <= 2 <= 3)%R ∧ 3 ≤ 4 ∧ ¬ (Rabs (2 - 1) < 1e-9)%R ∧
  _similarity 3 4 2
  = inr ((rpow (IZR 4) 2 - rpow (IZR (4 - 3)) 2) / rpow (IZR 4) 2)%R.
Proof.
  assert (0 < 4) as Ha by lia.
  assert (1 <= 2 <= 3)%R as Hw by lra.
  assert (3 ≤ 4) as Hs by lia.
  assert (¬ (Rabs (2 - 1) < 1e-9)%R) as Hnl.
  { replace (2 - 1)%R with 1%R by lra. rewrite Rabs_R1. lra. }
  split_and!; [done | lra | lra | done | done |].
  exact (proj2 (proj2 (proj1 similarity_formula 3 4 2%R Ha Hw) Hnl) Hs).
Defined.

(** ** Warp monotonicity *)






(** * Further properties of the index *)

(** ** [add], [remove] and the tables *)

(** Adding an item twice is adding it once. *)
Theorem add_idempotent (cfg : config) (x : string) (st : index) :
  add cfg x (add cfg x st) = add cfg x st.
Proof.
  unfold add at 1. destruct (decide (x ∈ members (add cfg x st))) as [|Hn];
    [done |].
  destruct Hn. unfold add. destruct (decide (x ∈ members st)); [done |].
  simpl. set_solver.
Qed.

(** On a reachable index the three tables agree: the items with a
    recorded length are the items of the set, the length is the one of the
    padded key, and an item is counted under an n-gram as often as the
    n-gram occurs in its padded key, items outside the set not at all. *)
Theorem tables_in_sync (cfg : config) (st : index) (item : string) :
  reachable cfg st →
  (item ∈ members st ↔ is_Some (lengths st !! item)) ∧
  (item ∈ members st →
     get_item_length st item = inr (String.length (pad cfg (key cfg item))))
  ∧ (item ∉ members st → get_item_length st item = inl KeyError) ∧
  (∀ g, default 0%nat (gram_count (_grams st) g item)
        = if decide (item ∈ members st)
          then occ g (splititem cfg item) else 0%nat) ∧
  (∀ g, is_Some (gram_count (_grams st) g item) ↔
        item ∈ members st ∧ g ∈ splititem cfg item).
Proof.
  intros Hr. destruct (reachable_consistent cfg st Hr) as [Hlen Hgr].
  unfold get_item_length. split_and!.
  - rewrite Hlen. destruct (decide (item ∈ members st)) as [Hm|Hm].
    + split; [by intros _; eexists | done].
    + split; [done | by intros [? ?]].
  - intros Hin. rewrite Hlen. by rewrite decide_True.
  - intros Hnin. rewrite Hlen. by rewrite decide_False.
  - intros g. rewrite Hgr. case_decide; [apply default_positive | done].
  - intros g. rewrite Hgr. case_decide as Hm.
    + unfold positive. case_decide as Hz.
      * apply occ_zero in Hz. split; [by intros [? ?] | by intros [_ ?]].
      * split; [|by eexists]. intros _. split; [done |].
        destruct (decide (g ∈ splititem cfg item)) as [|Hn]; [done |].
        by apply occ_zero in Hn.
    + split; [by intros [? ?] | by intros [? _]].
Qed.

Lemma tables_in_sync_witness :
  reachable default_config (update default_config ["ham"; "spam"] empty_index)
  ∧ get_item_length (update default_config ["ham"; "spam"] empty_index) "eggs"
    = inl KeyError.
Proof.
  pose proof (reachable_update default_config ["ham"; "spam"] empty_index
                (reachable_empty default_config)) as Hr.
  split; [exact Hr |].
  apply (tables_in_sync default_config _ "eggs" Hr).
  vm_compute. intros H. discriminate H.
Defined.

(** [remove] of an indexed item returns normally exactly when the n-grams
    of the item are pairwise distinct, and raises [KeyError] otherwise. *)
Theorem remove_raises_iff_repeated (cfg : config) (st : index) (x : string) :
  reachable cfg st → x ∈ members st →
  ((remove cfg x st).1 = None ↔ NoDup (splititem cfg x)) ∧
  ((remove cfg x st).1 = Some KeyError ↔ ¬ NoDup (splititem cfg x)).
Proof.
  intros Hr Hx. destruct (reachable_consistent cfg st Hr) as [Hlen Hgr].
  assert (NoDup (splititem cfg x) → (remove cfg x st).1 = None) as Hok.
  { intros Hnd. unfold remove. rewrite decide_True by done.
    rewrite Hlen, decide_True by done.
    destruct (del_grams_nodup x (splititem cfg x) (_grams st) Hnd)
      as [grams' ->]; [|done].
    intros g Hg. rewrite Hgr, decide_True by done. unfold positive.
    rewrite decide_False; [by eexists |]. intros Hz. by apply occ_zero in Hz. }
  assert (¬ NoDup (splititem cfg x) → (remove cfg x st).1 = Some KeyError)
    as Hbad.
  { intros Hdup. unfold remove. rewrite decide_True by done.
    rewrite Hlen, decide_True by done.
    pose proof (del_grams_dup x (splititem cfg x) (_grams st) Hdup) as H.
    by destruct (del_grams _ _ _). }
  split; split; try done.
  - intros Hnone. destruct (decide (NoDup (splititem cfg x))) as [|Hdup];
      [done |]. rewrite (Hbad Hdup) in Hnone. done.
  - intros Herr Hnd. rewrite (Hok Hnd) in Herr. done.
Qed.

Lemma remove_raises_iff_repeated_witness :
  reachable default_config (update default_config ["ham"; "aaaa"] empty_index)
  ∧ "aaaa" ∈ members (update default_config ["ham"; "aaaa"] empty_index)
  ∧ ¬ NoDup (splititem default_config "aaaa")
  ∧ (remove default_config "aaaa"
       (update default_config ["ham"; "aaaa"] empty_index)).1
    = Some KeyError.
Proof.
  pose proof (reachable_update default_config ["ham"; "aaaa"] empty_index
                (reachable_empty default_config)) as Hr.
  assert ("aaaa" ∈ members (update default_config ["ham"; "aaaa"] empty_index))
    as Hx by (vm_compute; reflexivity).
  assert (¬ NoDup (splititem default_config "aaaa")) as Hdup.
  { apply (bool_decide_eq_false_1 (NoDup (splititem default_config "aaaa"))).
    vm_compute. reflexivity. }
  split; [exact Hr |]. split; [exact Hx |]. split; [exact Hdup |].
  exact (proj2 (proj2 (remove_raises_iff_repeated default_config _ "aaaa"
                         Hr Hx)) Hdup).
Defined.

(** The shared count depends on the recorded counts only, not on which
    n-grams have a (possibly empty) dictionary of their own. *)
Lemma sum_list_support (F : string → nat) (D1 D2 : list string) :
  NoDup D1 → NoDup D2 →
  (∀ g, F g ≠ 0%nat → g ∈ D1 ↔ g ∈ D2) →
  sum_list (F <$> D1) = sum_list (F <$> D2).
Proof.
  intros Hnd1 Hnd2 Hsupp.
  assert (∀ D, sum_list (F <$> D)
               = sum_list (F <$> filter (λ g, F g ≠ 0%nat) D)) as Hfil.
  { induction D as [|g D IH]; [done |].
    rewrite filter_cons. case_decide as Hd; csimpl; rewrite IH; [done |].
    destruct (decide (F g = 0%nat)) as [->|]; [done | by destruct Hd]. }
  rewrite (Hfil D1), (Hfil D2).
  apply sum_list_perm, fmap_Permutation, NoDup_Permutation.
  - by apply NoDup_filter.
  - by apply NoDup_filter.
  - intros g. rewrite !list_elem_of_filter. split; intros [Hne Hin];
      (split; [done |]); by apply (Hsupp g Hne).
Qed.

Lemma shared_count_by_query (grams : gmap string (gmap string nat))
    (lq : list string) (m : string) :
  shared_count grams lq m
  = sum_list ((λ g, occ g lq `min` default 0 (gram_count grams g m))%nat
                <$> remove_dups lq).
Proof.
  set (F := (λ g, occ g lq `min` default 0 (gram_count grams g m))%nat).
  assert (shared_count grams lq m = sum_list (F <$> (map_to_list grams).*1))
    as ->.
  { unfold shared_count. rewrite <- list_fmap_compose.
    f_equal. apply Forall_fmap_ext_1, Forall_forall.
    intros [g sub] Hin. apply elem_of_map_to_list in Hin.
    unfold capped, compose, F, gram_count. simpl. by rewrite Hin. }
  apply sum_list_support.
  - apply NoDup_fst_map_to_list.
  - apply NoDup_remove_dups.
  - intros g Hne. unfold F in Hne. rewrite elem_of_remove_dups.
    assert (g ∈ lq) as Hq.
    { destruct (decide (g ∈ lq)) as [|Hn]; [done |].
      apply occ_zero in Hn. lia. }
    assert (g ∈ (map_to_list grams).*1) as Hk.
    { unfold gram_count in Hne.
      destruct (grams !! g) as [sub|] eqn:Hg; [|simpl in Hne; lia].
      apply list_elem_of_fmap. exists (g, sub).
      split; [done | by apply elem_of_map_to_list]. }
    tauto.
Qed.

Lemma shared_count_gram_count (grams grams' : gmap string (gmap string nat))
    (lq : list string) (m : string) :
  (∀ g, gram_count grams g m = gram_count grams' g m) →
  shared_count grams lq m = shared_count grams' lq m.
Proof.
  intros Heq. rewrite !shared_count_by_query. f_equal.
  apply Forall_fmap_ext_1, Forall_forall. intros g _. by rewrite Heq.
Qed.

(** A [remove] of an item of the set that returns normally deletes the
    item and nothing else, also on an index on which an earlier [remove]
    has raised: the item leaves the set and the length table, no n-gram
    records it any more, no query finds it, and the entries of the other
    items are the ones they were. *)
Theorem remove_deletes_item (cfg : config) (st st' : index) (x : string) :
  attainable cfg st → x ∈ members st → remove cfg x st = (None, st') →
  members st' = members st ∖ {[x]} ∧
  lengths st' = delete x (lengths st) ∧
  (∀ g m, gram_count (_grams st') g m
          = if decide (m = x) then None else gram_count (_grams st) g m) ∧
  (∀ query, items_sharing_ngrams cfg st' query !! x = None) ∧
  (∀ query m, m ≠ x →
     items_sharing_ngrams cfg st' query !! m
     = items_sharing_ngrams cfg st query !! m).
Proof.
  intros Ha Hin Hrem.
  destruct (attainable_recorded cfg st Ha) as [_ Hgr].
  assert (members st' = members st ∖ {[x]} ∧
          lengths st' = delete x (lengths st) ∧
          ∀ g m, gram_count (_grams st') g m
                 = if decide (m = x) then None
                   else gram_count (_grams st) g m) as (Hm & Hl & Hg).
  { unfold remove in Hrem. rewrite decide_True in Hrem by done.
    destruct (lengths st !! x) as [n|] eqn:Hlx; [|done].
    destruct (del_grams x (splititem cfg x) (_grams st))
      as [e grams'] eqn:Hdel.
    injection Hrem as -> <-. split_and!; [done | done |].
    intros g m. cbn [_grams]. rewrite (del_grams_ok _ _ _ _ Hdel).
    destruct (decide (m = x)) as [->|Hne].
    - case_decide as Hd; [done |].
      destruct (gram_count (_grams st) g x) as [c|] eqn:Hc; [|done].
      destruct Hd. split; [done |]. by apply (Hgr g x c).
    - rewrite decide_False; [done |]. intros [-> _]. done. }
  split_and!; [done | done | done | |].
  - intros query. rewrite items_sharing_ngrams_lookup.
    unfold positive. rewrite decide_True; [done |].
    destruct (decide (shared_count (_grams st') (split cfg query) x = 0%nat))
      as [|Hpos]; [done |].
    destruct (shared_count_entry (_grams st') (split cfg query) x)
      as (g & c & Hc & _); [lia |].
    rewrite Hg, decide_True in Hc by done. done.
  - intros query m Hne. rewrite !items_sharing_ngrams_lookup. f_equal.
    apply shared_count_gram_count. intros g.
    by rewrite Hg, decide_False by done.
Qed.

Lemma remove_deletes_item_witness :
  attainable default_config
    (remove default_config "aaaa"
       (update default_config ["ham"; "aaaa"] empty_index)).2
  ∧ "ham" ∈ members
      (remove default_config "aaaa"
         (update default_config ["ham"; "aaaa"] empty_index)).2
  ∧ ∀ query,
      items_sharing_ngrams default_config
        (remove default_config "ham"
           (remove default_config "aaaa"
              (update default_config ["ham"; "aaaa"] empty_index)).2).2 query
      !! "ham" = None.
Proof.
  assert (attainable default_config
            (remove default_config "aaaa"
               (update default_config ["ham"; "aaaa"] empty_index)).2) as Ha.
  { apply attainable_remove. simpl.
    apply attainable_add, attainable_add, attainable_empty. }
  assert ("ham" ∈ members
            (remove default_config "aaaa"
               (update default_config ["ham"; "aaaa"] empty_index)).2) as Hin
    by (vm_compute; reflexivity).
  split; [exact Ha |]. split; [exact Hin |].
  assert (remove default_config "ham"
            (remove default_config "aaaa"
               (update default_config ["ham"; "aaaa"] empty_index)).2
          = (None,
             (remove default_config "ham"
                (remove default_config "aaaa"
                   (update default_config ["ham"; "aaaa"] empty_index)).2).2))
    as Hrem.
  { assert ((remove default_config "ham"
               (remove default_config "aaaa"
                  (update default_config ["ham"; "aaaa"] empty_index)).2).1
            = None) as H1 by (vm_compute; reflexivity).
    destruct (remove default_config "ham"
                (remove default_config "aaaa"
                   (update default_config ["ham"; "aaaa"] empty_index)).2)
      as [e st']. simpl in H1. by rewrite H1. }
  exact (proj1 (proj2 (proj2 (proj2
    (remove_deletes_item default_config _ _ "ham" Ha Hin Hrem))))).
Defined.

(** ** The result of [search] *)

Lemma sort_desc_filter_insert (P : string * R → Prop)
    `{∀ r, Decision (P r)} (x : string * R) (l : list (string * R)) :
  StronglySorted ranked l →
  filter P (insert_desc x l)
  = if decide (P x) then insert_desc x (filter P l) else filter P l.
Proof.
  induction 1 as [|y l Hs IH Hall]; simpl.
  - rewrite filter_cons, filter_nil. by case_decide.
  - destruct (Rlt_dec x.2 y.2) as [Hlt|Hge].
    + rewrite !filter_cons, IH.
      destruct (decide (P y)); [|done].
      destruct (decide (P x)); [|done].
      simpl. by destruct (Rlt_dec x.2 y.2).
    + rewrite filter_cons. destruct (decide (P x)) as [Hx|Hx]; [|done].
      assert (Forall (ranked x) (filter P (y :: l))) as Hfil.
      { apply Forall_forall. intros z [_ Hz]%list_elem_of_filter.
        apply elem_of_cons in Hz as [->|Hz]; unfold ranked; [lra |].
        rewrite Forall_forall in Hall. specialize (Hall z Hz).
        unfold ranked in Hall. lra. }
      destruct (filter P (y :: l)) as [|z l']; [done |].
      apply Forall_cons in Hfil as [Hz _]. unfold ranked in Hz. simpl.
      destruct (Rlt_dec x.2 z.2); [lra | done].
Qed.

(** Sorting commutes with dropping elements. *)
Lemma sort_desc_filter (P : string * R → Prop) `{∀ r, Decision (P r)}
    (l : list (string * R)) :
  sort_desc (filter P l) = filter P (sort_desc l).
Proof.
  induction l as [|x l IH]; [done |].
  rewrite filter_cons. unfold sort_desc in *. cbn [foldr].
  rewrite sort_desc_filter_insert by apply sort_desc_sorted.
  fold (sort_desc l). destruct (decide (P x)); [|done].
  cbn [foldr]. by rewrite IH.
Qed.

Section scoring.
Context (cfg : config) (st : index) (query : string) (t : R).

(** The loop of [search] keeps, in order, the scored candidates that
    reach the threshold. *)
Lemma foldl_search_step_scored (cands : list (string * nat)) :
  (∀ ms, ms ∈ cands → ∃ l,
     lengths st !! ms.1 = Some l ∧
     _similarity (Z.of_nat ms.2) (allgrams_of cfg query l ms.2) (warp cfg)
       = inr (score (Z.of_nat ms.2) (allgrams_of cfg query l ms.2)
                (warp cfg))) →
  ∀ acc,
    foldl (search_step cfg st query t) (inr acc) cands
    = inr (acc ++ filter (reaches t) (scored cfg st query <$> cands)).
Proof.
  induction cands as [|ms cands IH]; intros Hok acc.
  - simpl. by rewrite app_nil_r.
  - destruct (Hok ms) as (l & Hl & Hsim); [by apply elem_of_cons; left |].
    assert (scored cfg st query ms
            = (ms.1, score (Z.of_nat ms.2) (allgrams_of cfg query l ms.2)
                       (warp cfg))) as Hsc.
    { unfold scored. by rewrite Hl. }
    assert (∀ acc',
              foldl (search_step cfg st query t) (inr acc') cands
              = inr (acc' ++ filter (reaches t) (scored cfg st query <$> cands)))
      as IH'.
    { intros acc'. apply IH. intros ms' Hin. apply Hok.
      by apply elem_of_cons; right. }
    cbn [foldl]. unfold search_step at 2. cbn [bind].
    unfold get_item_length. rewrite Hl. cbn [bind ret]. rewrite Hsim.
    cbn [bind]. rewrite fmap_cons, filter_cons, Hsc.
    destruct (Rleb t (score (Z.of_nat ms.2) (allgrams_of cfg query l ms.2)
                        (warp cfg))) eqn:Ht.
    + rewrite decide_True by exact Ht. unfold ret. rewrite IH'.
      by rewrite <- app_assoc.
    + rewrite decide_False by (unfold reaches; simpl; congruence).
      unfold ret. apply IH'.
Qed.

End scoring.

(** On a consistent index [search] sorts the scored candidates that reach
    the threshold. *)
Lemma search_scored (cfg : config) (st : index) (query : string)
    (thr : option R) :
  valid cfg → consistent cfg st →
  search cfg st query thr
  = inr (sort_desc
           (filter (reaches (default (threshold cfg) thr))
              (scored cfg st query
                 <$> map_to_list (items_sharing_ngrams cfg st query)))).
Proof.
  intros Hv Hc. unfold search. unfold ret at 1.
  rewrite foldl_search_step_scored; [done |].
  intros [m same] Hin%elem_of_map_to_list.
  destruct (candidate_scored cfg st query m same Hv Hc Hin)
    as (l & Hl & _ & _ & Hsim).
  by exists l.
Qed.

(** Raising the threshold only cuts the ranked list: the result for the
    higher threshold is the result for the lower one without the pairs
    that score below the higher threshold, so it is never longer. *)
Theorem search_threshold_monotone (cfg : config) (st : index)
    (query : string) (t1 t2 : R) :
  valid cfg → reachable cfg st → (t1 <= t2)%R →
  ∃ r1 r2,
    search cfg st query (Some t1) = inr r1 ∧
    search cfg st query (Some t2) = inr r2 ∧
    r2 = filter (reaches t2) r1 ∧
    (length r2 ≤ length r1)%nat ∧
    (∀ item sim, (item, sim) ∈ r2 ↔ (item, sim) ∈ r1 ∧ (t2 <= sim)%R).
Proof.
  intros Hv Hr Ht. pose proof (reachable_consistent cfg st Hr) as Hc.
  rewrite !search_scored by done. cbn [default].
  set (L := scored cfg st query
              <$> map_to_list (items_sharing_ngrams cfg st query)).
  exists (sort_desc (filter (reaches t1) L)),
         (sort_desc (filter (reaches t2) L)).
  assert (sort_desc (filter (reaches t2) L)
          = filter (reaches t2) (sort_desc (filter (reaches t1) L))) as Heq.
  { rewrite <- sort_desc_filter. f_equal.
    rewrite list_filter_filter. apply list_filter_iff.
    intros r. unfold reaches. rewrite !Rleb_true. split; [|tauto].
    intros H2. split; [done | lra]. }
  split_and!; [done | done | done | |].
  - rewrite Heq. apply length_filter.
  - intros item sim. rewrite Heq at 1. rewrite list_elem_of_filter.
    unfold reaches. rewrite Rleb_true. simpl. tauto.
Qed.

Lemma search_threshold_monotone_witness :
  valid default_config ∧
  reachable default_config (update default_config ["ham"; "spam"] empty_index)
  ∧ (0 <= 0.5)%R ∧
  ∃ r1 r2,
    search default_config
      (update default_config ["ham"; "spam"] empty_index) "mam" (Some 0%R)
    = inr r1 ∧
    search default_config
      (update default_config ["ham"; "spam"] empty_index) "mam" (Some 0.5%R)
    = inr r2 ∧
    (length r2 ≤ length r1)%nat.
Proof.
  pose proof (reachable_update default_config ["ham"; "spam"] empty_index
                (reachable_empty default_config)) as Hr.
  assert (0 <= 0.5)%R as Ht by lra.
  split; [exact default_config_valid |]. split; [exact Hr |].
  split; [exact Ht |].
  destruct (search_threshold_monotone default_config _ "mam" 0 0.5
              default_config_valid Hr Ht) as (r1 & r2 & H1 & H2 & _ & Hlen & _).
  exists r1, r2. split; [exact H1 |]. split; [exact H2 | exact Hlen].
Defined.

(** ** The tables are a function of the set of items *)

Lemma consistent_same_tables (cfg : config) (st1 st2 : index) :
  consistent cfg st1 → consistent cfg st2 → members st1 = members st2 →
  same_tables st1 st2.
Proof.
  intros [Hl1 Hg1] [Hl2 Hg2] Hm. split_and!; [done | |].
  - apply map_eq. intros m. by rewrite Hl1, Hl2, Hm.
  - intros g m. by rewrite Hg1, Hg2, Hm.
Qed.

Lemma consistent_same_sharing (cfg : config) (st1 st2 : index)
    (query : string) :
  consistent cfg st1 → consistent cfg st2 → members st1 = members st2 →
  items_sharing_ngrams cfg st1 query = items_sharing_ngrams cfg st2 query.
Proof.
  intros Hc1 Hc2 Hm. apply map_eq. intros m.
  rewrite !items_sharing_ngrams_lookup.
  rewrite !(shared_count_consistent cfg) by done. by rewrite Hm.
Qed.

(** On a consistent index [search] sorts the scored candidates that reach
    the threshold, in whatever order the dictionary yields them. *)
Lemma search_in_scored (cfg : config) (st : index) (query : string)
    (thr : option R) (cands : list (string * nat)) :
  valid cfg → consistent cfg st →
  cands ≡ₚ map_to_list (items_sharing_ngrams cfg st query) →
  search_in cfg st query thr cands
  = inr (sort_desc
           (filter (reaches (default (threshold cfg) thr))
              (scored cfg st query <$> cands))).
Proof.
  intros Hv Hc Hperm. unfold search_in. unfold ret at 1.
  rewrite foldl_search_step_scored; [done |].
  intros [m same] Hin. rewrite Hperm in Hin.
  apply elem_of_map_to_list in Hin.
  destruct (candidate_scored cfg st query m same Hv Hc Hin)
    as (l & Hl & _ & _ & Hsim).
  by exists l.
Qed.

Lemma Rge_antisymm : AntiSymm (=) (λ a b : R, (b <= a)%R).
Proof. intros a b H1 H2. lra. Qed.

(** Two ranked lists with the same pairs have the same scores, place by
    place: they can differ only in the order of pairs with equal
    scores. *)
Lemma ranked_scores_unique (r1 r2 : list (string * R)) :
  StronglySorted ranked r1 → StronglySorted ranked r2 → r1 ≡ₚ r2 →
  r1.*2 = r2.*2.
Proof.
  assert (∀ r, StronglySorted ranked r →
               StronglySorted (λ a b : R, (b <= a)%R) r.*2) as Hsnd.
  { induction 1 as [|x r _ IH Hall]; csimpl; constructor; [done |].
    apply Forall_fmap. eapply Forall_impl; [exact Hall |]. by intros y. }
  intros H1 H2 Hperm. pose proof Rge_antisymm as Hanti.
  apply (StronglySorted_unique (λ a b : R, (b <= a)%R));
    [by apply Hsnd | by apply Hsnd | by apply fmap_Permutation].
Qed.

Lemma consistent_same_search_in (cfg : config) (st1 st2 : index)
    (query : string) (thr : option R) (cands1 cands2 : list (string * nat)) :
  valid cfg →
  consistent cfg st1 → consistent cfg st2 → members st1 = members st2 →
  cands1 ≡ₚ map_to_list (items_sharing_ngrams cfg st1 query) →
  cands2 ≡ₚ map_to_list (items_sharing_ngrams cfg st2 query) →
  ∃ r1 r2,
    search_in cfg st1 query thr cands1 = inr r1 ∧
    search_in cfg st2 query thr cands2 = inr r2 ∧
    r1 ≡ₚ r2 ∧ r1.*2 = r2.*2.
Proof.
  intros Hv Hc1 Hc2 Hm Hp1 Hp2.
  rewrite (search_in_scored cfg st1) by done.
  rewrite (search_in_scored cfg st2) by done.
  eexists _, _. split; [done |]. split; [done |].
  destruct (consistent_same_tables cfg st1 st2 Hc1 Hc2 Hm) as (_ & Hl & _).
  assert (scored cfg st1 query = scored cfg st2 query) as ->.
  { unfold scored. by rewrite Hl. }
  assert (cands1 ≡ₚ cands2) as Hperm.
  { rewrite Hp1, Hp2.
    by rewrite (consistent_same_sharing cfg st1 st2 query Hc1 Hc2 Hm). }
  assert (sort_desc (filter (reaches (default (threshold cfg) thr))
                       (scored cfg st2 query <$> cands1))
          ≡ₚ sort_desc (filter (reaches (default (threshold cfg) thr))
                          (scored cfg st2 query <$> cands2))) as Hres.
  { rewrite !sort_desc_perm. by rewrite Hperm. }
  split; [done |].
  apply ranked_scores_unique; [apply sort_desc_sorted.. | done].
Qed.

(** With a validated configuration, two reachable indexes with the same
    items cannot be told apart, whatever sequences of [add] and [remove]
    led to them: their lengths and counts agree, every item shares the
    same number of n-grams with a query in both, and [search] returns the
    same pairs with the same scores place by place, in whatever order
    each index yields its candidates.  Only the order of items with equal
    scores can differ. *)
Theorem search_depends_on_members (cfg : config) (st1 st2 : index)
    (query : string) (thr : option R) :
  valid cfg →
  reachable cfg st1 → reachable cfg st2 → members st1 = members st2 →
  same_tables st1 st2 ∧
  (∀ m, items_sharing_ngrams cfg st1 query !! m
        = items_sharing_ngrams cfg st2 query !! m) ∧
  ∀ cands1 cands2,
    cands1 ≡ₚ map_to_list (items_sharing_ngrams cfg st1 query) →
    cands2 ≡ₚ map_to_list (items_sharing_ngrams cfg st2 query) →
    ∃ r1 r2,
      search_in cfg st1 query thr cands1 = inr r1 ∧
      search_in cfg st2 query thr cands2 = inr r2 ∧
      r1 ≡ₚ r2 ∧ r1.*2 = r2.*2.
Proof.
  intros Hv Hr1 Hr2 Hm.
  pose proof (reachable_consistent cfg st1 Hr1) as Hc1.
  pose proof (reachable_consistent cfg st2 Hr2) as Hc2.
  pose proof (consistent_same_tables cfg st1 st2 Hc1 Hc2 Hm) as Hsame.
  pose proof (consistent_same_sharing cfg st1 st2 query Hc1 Hc2 Hm) as Hsh.
  split_and!; [done | by rewrite Hsh |].
  intros cands1 cands2 Hp1 Hp2.
  by apply consistent_same_search_in.
Qed.

Lemma search_depends_on_members_witness :
  valid default_config
  ∧ reachable default_config
      (update default_config ["ham"; "spam"] empty_index)
  ∧ reachable default_config
      (update default_config ["spam"; "ham"; "spam"] empty_index)
  ∧ ∃ r1 r2,
      search default_config
        (update default_config ["ham"; "spam"] empty_index) "mam" None
      = inr r1 ∧
      search default_config
        (update default_config ["spam"; "ham"; "spam"] empty_index) "mam" None
      = inr r2 ∧
      r1 ≡ₚ r2 ∧ r1.*2 = r2.*2.
Proof.
  pose proof (reachable_update default_config ["ham"; "spam"] empty_index
                (reachable_empty default_config)) as Hr1.
  pose proof (reachable_update default_config ["spam"; "ham"; "spam"]
                empty_index (reachable_empty default_config)) as Hr2.
  split; [exact default_config_valid |].
  split; [exact Hr1 |]. split; [exact Hr2 |].
  assert (members (update default_config ["ham"; "spam"] empty_index)
          = members (update default_config ["spam"; "ham"; "spam"] empty_index))
    as Hm by (vm_compute; reflexivity).
  exact (proj2 (proj2 (search_depends_on_members default_config _ _ "mam" None
                         default_config_valid Hr1 Hr2 Hm))
           _ _ (Permutation_refl _) (Permutation_refl _)).
Defined.

(** ** The range of the score *)

Lemma rpow_lt (x y w : R) :
  (0 <= x < y)%R → (0 < w)%R → (rpow x w < rpow y w)%R.
Proof.
  intros [Hx Hxy] Hw. unfold rpow.
  destruct (Req_dec_T y 0); [lra |].
  destruct (Req_dec_T x 0).
  - unfold Rpower. apply exp_pos.
  - apply Rlt_Rpower_l; lra.
Qed.

Lemma rpow_0 (w : R) : rpow 0 w = 0%R.
Proof. unfold rpow. by destruct (Req_dec_T 0 0). Qed.

Lemma score_bounds (s a : Z) (w : R) :
  0 < a → 0 ≤ s ≤ a → (0 < w)%R →
  (0 <= score s a w <= 1)%R ∧
  (score s a w = 0%R ↔ s = 0) ∧
  (score s a w = 1%R ↔ s = a).
Proof.
  intros Ha [Hs0 Hsa] Hw.
  assert (0 < IZR a)%R as Ha' by by apply IZR_pos.
  assert (0 <= IZR s <= IZR a)%R as Hs' by (split; apply IZR_le; lia).
  unfold score. destruct (Rlt_dec (Rabs (w - 1)) 1e-9) as [_|_].
  - assert (IZR s / IZR a = IZR s * / IZR a)%R as -> by done.
    pose proof (Rinv_0_lt_compat (IZR a) Ha') as Hinv.
    assert (IZR s * / IZR a <= 1)%R.
    { apply (Rmult_le_reg_r (IZR a)); [done |].
      rewrite Rmult_assoc, Rinv_l by lra. lra. }
    split_and!.
    + nra.
    + done.
    + split.
      * intros H0. apply eq_IZR. nra.
      * intros ->. lra.
    + split.
      * intros H1. apply eq_IZR.
        assert (IZR s * / IZR a * IZR a = 1 * IZR a)%R as H2 by by rewrite H1.
        rewrite Rmult_assoc, Rinv_l in H2 by lra. lra.
      * intros ->. rewrite Rinv_r by lra. done.
  - set (X := rpow (IZR a) w). set (Y := rpow (IZR (a - s)) w).
    assert (0 < X)%R as HX by by apply rpow_pos.
    assert (0 <= IZR (a - s) <= IZR a)%R as Hd
      by (split; apply IZR_le; lia).
    assert (0 <= Y <= X)%R as HY.
    { unfold X, Y. split.
      - destruct (decide (a - s = 0)) as [->|]; [by rewrite rpow_0; lra |].
        apply Rlt_le, rpow_pos, IZR_pos. lia.
      - destruct (decide (s = 0)) as [->|]; [by rewrite Z.sub_0_r; lra |].
        apply Rlt_le, rpow_lt; [|done].
        split; [lra | apply IZR_lt; lia]. }
    assert (Y = X ↔ s = 0) as HYX.
    { unfold X, Y. split.
      - intros Heq. destruct (decide (s = 0)) as [|Hne]; [done |].
        assert (rpow (IZR (a - s)) w < rpow (IZR a) w)%R; [|lra].
        apply rpow_lt; [|done]. split; [lra | apply IZR_lt; lia].
      - intros ->. by rewrite Z.sub_0_r. }
    assert (Y = 0%R ↔ s = a) as HY0.
    { unfold Y. split.
      - intros Heq. destruct (decide (s = a)) as [|Hne]; [done |].
        assert (0 < rpow (IZR (a - s)) w)%R; [|lra].
        apply rpow_pos, IZR_pos. lia.
      - intros ->. by rewrite Z.sub_diag, rpow_0. }
    assert ((X - Y) / X = 1 - Y * / X)%R as -> by (field; lra).
    pose proof (Rinv_0_lt_compat X HX) as Hinv.
    assert (Y * / X <= 1)%R.
    { apply (Rmult_le_reg_r X); [done |].
      rewrite Rmult_assoc, Rinv_l by lra. lra. }
    assert (Y * / X = 1 ↔ Y = X)%R as H1.
    { split.
      - intros H1. assert (Y * / X * X = 1 * X)%R as H2 by by rewrite H1.
        rewrite Rmult_assoc, Rinv_l in H2 by lra. lra.
      - intros ->. rewrite Rinv_r by lra. done. }
    assert (Y * / X = 0 ↔ Y = 0)%R as H0.
    { split; [nra | intros ->; lra]. }
    split_and!.
    + lra.
    + nra.
    + rewrite <- HYX, <- H1. split; lra.
    + rewrite <- HY0, <- H0. split; lra.
Qed.





(** ** What [search] returns *)

Lemma scored_candidate (cfg : config) (st : index) (query : string)
    (m : string) (same : nat) :
  consistent cfg st →
  items_sharing_ngrams cfg st query !! m = Some same →
  let c := common_grams (split cfg query) (splititem cfg m) in
  let a := Z.of_nat (length (split cfg query))
           + Z.of_nat (length (splititem cfg m)) - Z.of_nat c in
  m ∈ members st ∧ same = c ∧ (0 < c)%nat ∧ Z.of_nat c ≤ a ∧
  scored cfg st query (m, same) = (m, score (Z.of_nat c) a (warp cfg)).
Proof.
  intros Hc Hlook c a.
  destruct (candidate_consistent cfg st query m same Hc Hlook)
    as (Hm & Hl & -> & Hpos).
  pose proof (common_grams_le_l (split cfg query) (splititem cfg m)).
  pose proof (common_grams_le_r (split cfg query) (splititem cfg m)).
  split_and!; [done | done | done | unfold a, c; lia |].
  unfold scored, a, c. cbn [fst snd]. rewrite Hl. simpl default.
  unfold id. by rewrite (allgrams_of_common cfg query m Hpos).
Qed.

Lemma search_result_sound (cfg : config) (st : index) (query : string)
    (thr : option R) (results : list (string * R)) (x : string) (sim : R) :
  valid cfg → consistent cfg st →
  search cfg st query thr = inr results → (x, sim) ∈ results →
  let c := common_grams (split cfg query) (splititem cfg x) in
  x ∈ members st ∧ (0 < c)%nat ∧
  sim = score (Z.of_nat c)
          (Z.of_nat (length (split cfg query))
           + Z.of_nat (length (splititem cfg x)) - Z.of_nat c) (warp cfg) ∧
  (default (threshold cfg) thr <= sim)%R ∧
  (0 < sim <= 1)%R.
Proof.
  intros Hv Hc Hs Hin c. rewrite search_scored in Hs by done.
  injection Hs as <-.
  rewrite (elem_of_Permutation_proper _ _ _ (sort_desc_perm _)) in Hin.
  apply list_elem_of_filter in Hin as [Hreach Hin].
  apply list_elem_of_fmap in Hin as ([m same] & Heq & Hin).
  apply elem_of_map_to_list in Hin.
  destruct (scored_candidate cfg st query m same Hc Hin)
    as (Hm & -> & Hpos & Hle & Hsc).
  rewrite Hsc in Heq. injection Heq as -> ->. fold c in Hpos, Hle |- *.
  unfold reaches in Hreach. apply Rleb_true in Hreach. simpl in Hreach.
  destruct Hv as (_ & Hw & _).
  destruct (score_bounds (Z.of_nat c)
              (Z.of_nat (length (split cfg query))
               + Z.of_nat (length (splititem cfg m)) - Z.of_nat c) (warp cfg))
    as ([H0 H1] & Hz & _); [lia | lia | lra |].
  split_and!; [done | done | done | done | | done].
  destruct H0 as [|Heq0]; [done |]. symmetry in Heq0.
  apply Hz in Heq0. lia.
Qed.

Lemma search_result_complete (cfg : config) (st : index) (query : string)
    (thr : option R) (results : list (string * R)) (x : string) :
  valid cfg → consistent cfg st →
  search cfg st query thr = inr results →
  let c := common_grams (split cfg query) (splititem cfg x) in
  let sim := score (Z.of_nat c)
               (Z.of_nat (length (split cfg query))
                + Z.of_nat (length (splititem cfg x)) - Z.of_nat c)
               (warp cfg) in
  x ∈ members st → (0 < c)%nat → (default (threshold cfg) thr <= sim)%R →
  (x, sim) ∈ results.
Proof.
  intros Hv Hc Hs c sim Hx Hpos Ht. rewrite search_scored in Hs by done.
  injection Hs as <-.
  rewrite (elem_of_Permutation_proper _ _ _ (sort_desc_perm _)).
  assert (items_sharing_ngrams cfg st query !! x = Some c) as Hlook.
  { rewrite items_sharing_ngrams_lookup.
    rewrite (shared_count_consistent cfg) by done.
    rewrite decide_True by done. fold c. unfold positive.
    by rewrite decide_False by lia. }
  destruct (scored_candidate cfg st query x c Hc Hlook)
    as (_ & _ & _ & _ & Hsc).
  apply list_elem_of_filter. split.
  - unfold reaches. by apply Rleb_true.
  - apply list_elem_of_fmap. exists (x, c). split; [by rewrite Hsc |].
    by apply elem_of_map_to_list.
Qed.

(** On a reachable index, with a validated configuration, [search]
    returns exactly the items of the set that share an n-gram with the
    query and whose score reaches the threshold, each once.  The score is the one of the number of n-grams
    the query and the item have in common out of the number they have
    together, so it lies in (0, 1] and does not depend on the other
    items. *)
Theorem search_characterised (cfg : config) (st : index) (query : string)
    (thr : option R) :
  valid cfg → reachable cfg st →
  ∃ results, search cfg st query thr = inr results ∧
    NoDup results.*1 ∧
    (∀ x sim, (x, sim) ∈ results ↔
       let c := common_grams (split cfg query) (splititem cfg x) in
       x ∈ members st ∧ (0 < c)%nat ∧
       sim = score (Z.of_nat c)
               (Z.of_nat (length (split cfg query))
                + Z.of_nat (length (splititem cfg x)) - Z.of_nat c)
               (warp cfg) ∧
       (default (threshold cfg) thr <= sim)%R) ∧
    (∀ x sim, (x, sim) ∈ results → (0 < sim <= 1)%R).
Proof.
  intros Hv Hr. pose proof (reachable_consistent cfg st Hr) as Hc.
  pose proof (search_scored cfg st query thr Hv Hc) as Hs.
  eexists. split; [exact Hs |]. split_and!.
  - rewrite (sort_desc_perm _).
    eapply sublist_NoDup; [|apply fmap_sublist, sublist_filter].
    rewrite <- list_fmap_compose.
    assert (fst ∘ scored cfg st query = fst) as -> by done.
    apply NoDup_fst_map_to_list.
  - intros x sim. split.
    + intros Hin.
      destruct (search_result_sound cfg st query thr _ x sim Hv Hc Hs Hin)
        as (H1 & H2 & H3 & H4 & _). done.
    + intros (Hx & Hpos & -> & Ht).
      by apply (search_result_complete cfg st query thr _ x Hv Hc Hs).
  - intros x sim Hin.
    by destruct (search_result_sound cfg st query thr _ x sim Hv Hc Hs Hin)
      as (_ & _ & _ & _ & H5).
Qed.

Lemma search_characterised_witness :
  valid default_config ∧
  reachable default_config (update default_config ["ham"; "spam"] empty_index)
  ∧ ∃ results,
      search default_config
        (update default_config ["ham"; "spam"] empty_index) "mam" None
      = inr results ∧ NoDup results.*1.
Proof.
  pose proof (reachable_update default_config ["ham"; "spam"] empty_index
                (reachable_empty default_config)) as Hr.
  split; [exact default_config_valid |]. split; [exact Hr |].
  destruct (search_characterised default_config _ "mam" None
              default_config_valid Hr) as (results & Hs & Hnd & _).
  exists results. split; [exact Hs | exact Hnd].
Defined.

(** ** [find], [searchitem] and [finditem] *)

Lemma head_ranked (results : list (string * R)) (r : string * R) :
  StronglySorted ranked results → head results = Some r →
  ∀ y s, (y, s) ∈ results → (s <= r.2)%R.
Proof.
  intros Hs Hhead y s Hin. destruct results as [|r' rest]; [done |].
  injection Hhead as ->. apply StronglySorted_inv in Hs as [_ Hall].
  apply elem_of_cons in Hin as [Heq|Hin]; [subst; simpl; lra |].
  rewrite Forall_forall in Hall. apply (Hall _ Hin).
Qed.

(** [find] returns the first item of the ranked list: none exactly when no
    candidate reaches the threshold, and otherwise an item no other result
    outscores. *)
Theorem find_best (cfg : config) (st : index) (query : string)
    (thr : option R) :
  valid cfg → reachable cfg st →
  ∃ results, search cfg st query thr = inr results ∧
    find cfg st query thr = inr (fst <$> head results) ∧
    (find cfg st query thr = inr None ↔ results = []) ∧
    ∀ x, find cfg st query thr = inr (Some x) →
      ∃ sim, (x, sim) ∈ results ∧
        ∀ y s, (y, s) ∈ results → (s <= sim)%R.
Proof.
  intros Hv Hr.
  destruct (search_consistent cfg st query thr Hv
              (reachable_consistent cfg st Hr)) as (results & Hs & _ & Hsort).
  exists results. split; [done |].
  assert (find cfg st query thr = inr (fst <$> head results)) as Hfind.
  { unfold find. rewrite Hs. cbn [bind]. by destruct results. }
  split; [done |]. rewrite Hfind. split.
  - destruct results; [done |]. split; intros H; discriminate H.
  - intros x Hx. destruct results as [|[x' sim] rest]; [done |].
    injection Hx as <-. exists sim. split; [by apply elem_of_cons; left |].
    intros y s Hin.
    apply (head_ranked _ (x', sim) Hsort eq_refl y s Hin).
Qed.

Lemma find_best_witness :
  valid default_config ∧
  reachable default_config (update default_config ["ham"; "spam"] empty_index)
  ∧ ∃ results,
      search default_config
        (update default_config ["ham"; "spam"] empty_index) "mam" None
      = inr results ∧
      find default_config
        (update default_config ["ham"; "spam"] empty_index) "mam" None
      = inr (fst <$> head results).
Proof.
  pose proof (reachable_update default_config ["ham"; "spam"] empty_index
                (reachable_empty default_config)) as Hr.
  split; [exact default_config_valid |]. split; [exact Hr |].
  destruct (find_best default_config _ "mam" None default_config_valid Hr)
    as (results & Hs & Hf & _).
  exists results. split; [exact Hs | exact Hf].
Defined.

(** The score of an indexed item against its own key. *)
Lemma self_in_search (cfg : config) (st : index) (x : string)
    (results : list (string * R)) :
  valid cfg → consistent cfg st → x ∈ members st →
  split cfg (key cfg x) ≠ [] →
  search cfg st (key cfg x) None = inr results →
  (x, 1%R) ∈ results.
Proof.
  intros Hv Hc Hx Hne Hs. rewrite search_scored in Hs by done.
  injection Hs as <-.
  rewrite (elem_of_Permutation_proper _ _ _ (sort_desc_perm _)).
  fold (splititem cfg x) in Hne.
  assert (0 < length (splititem cfg x))%nat as Hlen.
  { destruct (splititem cfg x); [done | simpl; lia]. }
  assert (items_sharing_ngrams cfg st (key cfg x) !! x
          = Some (length (splititem cfg x))) as Hlook.
  { rewrite items_sharing_ngrams_lookup.
    rewrite (shared_count_consistent cfg) by done.
    rewrite decide_True by done. fold (splititem cfg x).
    rewrite common_grams_self. unfold positive.
    by rewrite decide_False by lia. }
  destruct (scored_candidate cfg st (key cfg x) x _ Hc Hlook)
    as (_ & Hsame & _ & _ & Hsc).
  fold (splititem cfg x) in Hsc. rewrite common_grams_self in Hsc.
  replace (Z.of_nat (length (splititem cfg x))
           + Z.of_nat (length (splititem cfg x))
           - Z.of_nat (length (splititem cfg x)))
    with (Z.of_nat (length (splititem cfg x))) in Hsc by lia.
  rewrite score_self in Hsc by lia.
  apply list_elem_of_filter. split.
  - unfold reaches. apply Rleb_true. simpl. destruct Hv as ([_ Ht] & _). done.
  - apply list_elem_of_fmap. eexists. split; [symmetry; exact Hsc |].
    by apply elem_of_map_to_list.
Qed.

(** On a reachable index, two items of the set with the same key are
    returned together and with the same score. *)
Theorem search_same_key (cfg : config) (st : index) (query : string)
    (thr : option R) (results : list (string * R)) (x y : string) (sim : R) :
  valid cfg → reachable cfg st →
  x ∈ members st → y ∈ members st → key cfg x = key cfg y →
  search cfg st query thr = inr results →
  (x, sim) ∈ results → (y, sim) ∈ results.
Proof.
  intros Hv Hr Hx Hy Hkey Hs Hin.
  pose proof (reachable_consistent cfg st Hr) as Hc.
  destruct (search_result_sound cfg st query thr _ x sim Hv Hc Hs Hin)
    as (_ & Hpos & -> & Ht & _).
  assert (splititem cfg x = splititem cfg y) as Heq
    by (unfold splititem; by rewrite Hkey).
  rewrite Heq in *.
  by apply (search_result_complete cfg st query thr _ y Hv Hc Hs).
Qed.

Lemma search_same_key_witness :
  valid prefix_config ∧
  reachable prefix_config
    (update prefix_config ["hamper"; "hammer"] empty_index) ∧
  key prefix_config "hamper" = key prefix_config "hammer" ∧
  ∃ results,
    search prefix_config
      (update prefix_config ["hamper"; "hammer"] empty_index) "ham" None
    = inr results ∧
    ("hamper", 1%R) ∈ results ∧ ("hammer", 1%R) ∈ results.
Proof.
  assert (valid prefix_config) as Hv.
  { unfold valid, prefix_config; simpl. split_and!; (lra || lia || done). }
  pose proof (reachable_update prefix_config ["hamper"; "hammer"] empty_index
                (reachable_empty prefix_config)) as Hr.
  pose proof (reachable_consistent _ _ Hr) as Hc.
  assert ("hamper" ∈ members
            (update prefix_config ["hamper"; "hammer"] empty_index))
    as Hx by (vm_compute; reflexivity).
  assert ("hammer" ∈ members
            (update prefix_config ["hamper"; "hammer"] empty_index))
    as Hy by (vm_compute; reflexivity).
  assert (split prefix_config (key prefix_config "hamper") ≠ []) as Hne.
  { intros H. vm_compute in H. discriminate H. }
  split; [exact Hv |]. split; [exact Hr |]. split; [reflexivity |].
  destruct (search_consistent prefix_config _ "ham" None Hv Hc)
    as (results & Hs & _).
  pose proof (self_in_search prefix_config _ "hamper" results Hv Hc Hx Hne Hs)
    as Hin.
  exists results. split; [exact Hs |]. split; [exact Hin |].
  exact (search_same_key prefix_config _ "ham" None results
           "hamper" "hammer" 1%R Hv Hr Hx Hy eq_refl Hs Hin).
Defined.

(** On a reachable index, [finditem] of an item of the set whose key
    yields an n-gram always finds an item that scores 1, the item itself
    being one, whatever threshold it is given: [searchitem] does not pass
    the threshold on, and the configured threshold is at most 1. *)
Theorem finditem_indexed (cfg : config) (st : index) (x : string)
    (thr : option R) :
  valid cfg → reachable cfg st → x ∈ members st →
  split cfg (key cfg x) ≠ [] →
  ∃ results y,
    searchitem cfg st x thr = inr results ∧
    search cfg st (key cfg x) None = inr results ∧
    (x, 1%R) ∈ results ∧
    finditem cfg st x thr = inr (Some y) ∧
    head results = Some (y, 1%R).
Proof.
  intros Hv Hr Hx Hne. pose proof (reachable_consistent cfg st Hr) as Hc.
  destruct (search_consistent cfg st (key cfg x) None Hv Hc)
    as (results & Hs & _ & Hsort).
  pose proof (self_in_search cfg st x results Hv Hc Hx Hne Hs) as Hself.
  destruct results as [|[y s] rest]; [by apply not_elem_of_nil in Hself |].
  exists ((y, s) :: rest), y.
  assert (s = 1%R) as ->.
  { pose proof (head_ranked _ (y, s) Hsort eq_refl x 1%R Hself) as Hge.
    destruct (search_result_sound cfg st (key cfg x) None _ y s Hv Hc Hs)
      as (_ & _ & _ & _ & [_ Hle]); [by apply elem_of_cons; left |].
    simpl in Hge. lra. }
  split_and!; [done | done | done | | done].
  unfold finditem, searchitem. by rewrite Hs.
Qed.

Lemma finditem_indexed_witness :
  valid default_config ∧
  reachable default_config (update default_config ["ham"; "spam"] empty_index)
  ∧ "spam" ∈ members (update default_config ["ham"; "spam"] empty_index)
  ∧ split default_config (key default_config "spam") ≠ []
  ∧ ∃ y, finditem default_config
           (update default_config ["ham"; "spam"] empty_index) "spam"
           (Some 2%R) = inr (Some y).
Proof.
  pose proof (reachable_update default_config ["ham"; "spam"] empty_index
                (reachable_empty default_config)) as Hr.
  assert ("spam" ∈ members (update default_config ["ham"; "spam"] empty_index))
    as Hx by (vm_compute; reflexivity).
  assert (split default_config (key default_config "spam") ≠ []) as Hne.
  { intros H. vm_compute in H. discriminate H. }
  split; [exact default_config_valid |]. split; [exact Hr |].
  split; [exact Hx |]. split; [exact Hne |].
  destruct (finditem_indexed default_config _ "spam" (Some 2%R)
              default_config_valid Hr Hx Hne)
    as (results & y & _ & _ & _ & Hf & _).
  exists y. exact Hf.
Defined.

(** ** [update], [copy] and [__reduce__] *)

Lemma members_add (cfg : config) (x : string) (st : index) :
  members (add cfg x st) = {[x]} ∪ members st.
Proof.
  unfold add. destruct (decide (x ∈ members st)); [set_solver | done].
Qed.

Lemma members_update (cfg : config) (items : list string) (st : index) :
  members (update cfg items st) = members st ∪ list_to_set items.
Proof.
  revert st. unfold update. induction items as [|x items IH]; intros st.
  - simpl. set_solver.
  - cbn [foldl]. rewrite IH, members_add. set_solver.
Qed.

(** [update] adds exactly the listed items, and neither their order nor
    their repetition in the list leaves a trace in the tables. *)
Theorem update_adds_all (cfg : config) (items items' : list string)
    (st : index) :
  reachable cfg st →
  (list_to_set items : gset string) = list_to_set items' →
  members (update cfg items st) = members st ∪ list_to_set items ∧
  reachable cfg (update cfg items st) ∧
  same_tables (update cfg items st) (update cfg items' st).
Proof.
  intros Hr Hset. split; [apply members_update |].
  split; [by apply reachable_update |].
  apply (consistent_same_tables cfg).
  - by apply reachable_consistent, reachable_update.
  - by apply reachable_consistent, reachable_update.
  - by rewrite !members_update, Hset.
Qed.

Lemma update_adds_all_witness :
  reachable default_config empty_index ∧
  (list_to_set ["ham"; "spam"] : gset string)
  = list_to_set ["spam"; "ham"; "ham"] ∧
  same_tables (update default_config ["ham"; "spam"] empty_index)
    (update default_config ["spam"; "ham"; "ham"] empty_index).
Proof.
  assert ((list_to_set ["ham"; "spam"] : gset string)
          = list_to_set ["spam"; "ham"; "ham"]) as Hset
    by (vm_compute; reflexivity).
  split; [exact (reachable_empty default_config) |]. split; [exact Hset |].
  exact (proj2 (proj2 (update_adds_all default_config _ _ empty_index
                         (reachable_empty default_config) Hset))).
Defined.

(** The stored attributes pass the checks they passed before. *)
Lemma init_attributes (cfg : config) :
  valid cfg → init (attributes cfg) = inr cfg.
Proof.
  intros ([Ht0 Ht1] & [Hw1 Hw3] & HN & [Hp0 Hp1] & Hc).
  destruct cfg as [t w n p c k]. simpl in *.
  unfold init, attributes. cbn [arg_threshold arg_warp arg_N arg_pad_len
    arg_pad_char arg_key num_val NGram.threshold NGram.warp NGram.N
    NGram._pad_len NGram._pad_char NGram._key default].
  rewrite !(proj2 (Rleb_true _ _)) by done. cbn [andb negb].
  unfold Datatypes.id.
  destruct (Z.leb_spec 1 n); [|lia]. cbn [negb].
  destruct (Z.leb_spec 0 p); [|lia].
  destruct (Z.ltb_spec p n); [|lia]. cbn [andb negb].
  rewrite Hc. destruct k; reflexivity.
Qed.

(** [copy] of an index with a validated configuration succeeds in every
    state, also after a [remove] has raised: the copy has the
    configuration and the items of the original and is built afresh from
    them, so it holds no entry a raising [remove] left behind; the
    arguments of [__reduce__] rebuild the same index.  When the original
    is reachable, the copy has the same lengths and counts, every item
    shares the same number of n-grams with a query in both, and [search]
    returns the same pairs with the same scores place by place, in
    whatever order each index yields its candidates. *)
Theorem copy_same_index (cfg : config) (st : index) :
  valid cfg →
  ∃ st', copy cfg st = inr (cfg, st') ∧
    NGram_new (__reduce__ cfg st).1 (__reduce__ cfg st).2 = inr (cfg, st') ∧
    reachable cfg st' ∧
    members st' = members st ∧
    (reachable cfg st →
     same_tables st st' ∧
     ∀ query,
       (∀ m, items_sharing_ngrams cfg st query !! m
             = items_sharing_ngrams cfg st' query !! m) ∧
       ∀ thr cands cands',
         cands ≡ₚ map_to_list (items_sharing_ngrams cfg st query) →
         cands' ≡ₚ map_to_list (items_sharing_ngrams cfg st' query) →
         ∃ r r',
           search_in cfg st query thr cands = inr r ∧
           search_in cfg st' query thr cands' = inr r' ∧
           r ≡ₚ r' ∧ r.*2 = r'.*2).
Proof.
  intros Hv.
  exists (update cfg (elements (members st)) empty_index).
  assert (copy cfg st
          = inr (cfg, update cfg (elements (members st)) empty_index))
    as Hcopy.
  { unfold copy, NGram_new. by rewrite init_attributes. }
  pose proof (reachable_update cfg (elements (members st)) empty_index
                (reachable_empty cfg)) as Hr'.
  assert (members st
          = members (update cfg (elements (members st)) empty_index)) as Hm.
  { rewrite members_update. simpl. set_solver. }
  pose proof (reachable_consistent cfg _ Hr') as Hc'.
  split_and!; [done | done | done | done |].
  intros Hr. pose proof (reachable_consistent cfg st Hr) as Hc.
  split; [by apply (consistent_same_tables cfg) |].
  intros query. split.
  - intros m. by rewrite (consistent_same_sharing cfg st _ query Hc Hc' Hm).
  - intros thr cands cands' Hp Hp'. by apply consistent_same_search_in.
Qed.

Lemma copy_same_index_witness :
  valid default_config
  ∧ ∃ st',
      copy default_config
        (remove default_config "aaaa"
           (update default_config ["ham"; "aaaa"] empty_index)).2
      = inr (default_config, st') ∧
      reachable default_config st' ∧
      members st'
      = members (remove default_config "aaaa"
                   (update default_config ["ham"; "aaaa"] empty_index)).2.
Proof.
  split; [exact default_config_valid |].
  destruct (copy_same_index default_config
              (remove default_config "aaaa"
                 (update default_config ["ham"; "aaaa"] empty_index)).2
              default_config_valid)
    as (st' & Hc & _ & Hr & Hm & _).
  exists st'. split; [exact Hc |]. split; [exact Hr | exact Hm].
Defined.

(** ** The set updates *)

Lemma remove_distinct (cfg : config) (st : index) (x : string) :
  consistent cfg st → x ∈ members st → NoDup (splititem cfg x) →
  ∃ st', remove cfg x st = (None, st') ∧
    members st' = members st ∖ {[x]}.
Proof.
  intros [Hlen Hgr] Hx Hnd. unfold remove. rewrite decide_True by done.
  rewrite Hlen, decide_True by done.
  destruct (del_grams_nodup x (splititem cfg x) (_grams st) Hnd)
    as [grams' ->]; [|by eexists].
  intros g Hg. rewrite Hgr, decide_True by done. unfold positive.
  rewrite decide_False; [by eexists |]. intros Hz. by apply occ_zero in Hz.
Qed.

Lemma remove_repeated (cfg : config) (st : index) (x : string) :
  consistent cfg st → x ∈ members st → ¬ NoDup (splititem cfg x) →
  (remove cfg x st).1 = Some KeyError.
Proof.
  intros [Hlen Hgr] Hx Hdup. unfold remove. rewrite decide_True by done.
  rewrite Hlen, decide_True by done.
  pose proof (del_grams_dup x (splititem cfg x) (_grams st) Hdup) as H.
  by destruct (del_grams _ _ _).
Qed.

Lemma difference_update_distinct (cfg : config) (other : list string)
    (st : index) :
  reachable cfg st →
  (∀ x, x ∈ other → x ∈ members st → NoDup (splititem cfg x)) →
  ∃ st', difference_update cfg other st = (None, st') ∧
    reachable cfg st' ∧
    members st' = members st ∖ list_to_set other.
Proof.
  revert st. induction other as [|x other IH]; intros st Hr Hnd.
  - exists st. simpl. split; [done |]. split; [done | set_solver].
  - cbn [difference_update]. unfold discard.
    destruct (decide (x ∈ members st)) as [Hx|Hx].
    + destruct (remove_distinct cfg st x (reachable_consistent cfg st Hr) Hx)
        as (st1 & Hrem & Hm1); [apply Hnd; [by left | done] |].
      rewrite Hrem.
      destruct (IH st1) as (st' & Hd & Hr' & Hm').
      * by apply (reachable_remove cfg x st).
      * intros y Hy Hy1. apply Hnd; [by right |]. rewrite Hm1 in Hy1.
        set_solver.
      * exists st'. split; [done |]. split; [done |].
        rewrite Hm', Hm1. set_solver.
    + destruct (IH st) as (st' & Hd & Hr' & Hm'); [done | |].
      * intros y Hy Hy1. apply Hnd; [by right | done].
      * exists st'. split; [done |]. split; [done |].
        rewrite Hm'. set_solver.
Qed.

Lemma difference_update_repeated (cfg : config) (other : list string)
    (st : index) (x : string) :
  reachable cfg st →
  x ∈ other → x ∈ members st → ¬ NoDup (splititem cfg x) →
  (difference_update cfg other st).1 = Some KeyError.
Proof.
  revert st. induction other as [|y other IH]; intros st Hr Hin Hx Hdup.
  - by apply not_elem_of_nil in Hin.
  - cbn [difference_update]. unfold discard.
    destruct (decide (y ∈ members st)) as [Hy|Hy].
    + destruct (decide (NoDup (splititem cfg y))) as [Hnd|Hnd].
      * destruct (remove_distinct cfg st y (reachable_consistent cfg st Hr)
                    Hy Hnd) as (st1 & Hrem & Hm1).
        rewrite Hrem. apply elem_of_cons in Hin as [->|Hin]; [done |].
        apply IH; [by apply (reachable_remove cfg y st) | done | | done].
        rewrite Hm1. assert (x ≠ y) by (by intros ->). set_solver.
      * pose proof (remove_repeated cfg st y (reachable_consistent cfg st Hr)
                      Hy Hnd) as Herr.
        destruct (remove cfg y st) as [e st1]. simpl in Herr. by subst e.
    + apply elem_of_cons in Hin as [->|Hin]; [done |]. by apply IH.
Qed.

Lemma members_remove (cfg : config) (x : string) (st : index) :
  members (remove cfg x st).2 = members st ∖ {[x]}.
Proof.
  unfold remove. destruct (decide (x ∈ members st)) as [Hx|Hx].
  - destruct (lengths st !! x); [|done].
    by destruct (del_grams x (splititem cfg x) (_grams st)).
  - simpl. set_solver.
Qed.

(** [difference_update] on a reachable index, for a collection [other]
    that is not the index itself, returns normally exactly when every
    listed item of the set has pairwise distinct n-grams, and raises
    [KeyError] otherwise; when it returns, the set has lost the listed
    items and nothing else.  Called on the index itself it returns
    normally only when the set is empty: otherwise it removes one item
    and raises [RuntimeError], or [KeyError] when that item has a
    repeated n-gram. *)
Theorem difference_update_removes (cfg : config) (other : list string)
    (st : index) :
  reachable cfg st →
  ((difference_update cfg other st).1 = None ↔
   ∀ x, x ∈ other → x ∈ members st → NoDup (splititem cfg x)) ∧
  ((difference_update cfg other st).1 ≠ None →
   (difference_update cfg other st).1 = Some KeyError) ∧
  ((difference_update cfg other st).1 = None →
   reachable cfg (difference_update cfg other st).2 ∧
   members (difference_update cfg other st).2
   = members st ∖ list_to_set other) ∧
  ((difference_update_self cfg st).1 = None ↔ members st = ∅) ∧
  (members st ≠ ∅ →
   ∃ x, x ∈ members st ∧
     members (difference_update_self cfg st).2 = members st ∖ {[x]} ∧
     ((difference_update_self cfg st).1 = Some RuntimeError ↔
      NoDup (splititem cfg x)) ∧
     ((difference_update_self cfg st).1 = Some KeyError ↔
      ¬ NoDup (splititem cfg x))).
Proof.
  intros Hr.
  assert ((∀ x, x ∈ other → x ∈ members st → NoDup (splititem cfg x)) →
          (difference_update cfg other st).1 = None ∧
          reachable cfg (difference_update cfg other st).2 ∧
          members (difference_update cfg other st).2
          = members st ∖ list_to_set other) as Hok.
  { intros Hnd.
    destruct (difference_update_distinct cfg other st Hr Hnd)
      as (st' & -> & Hr' & Hm). done. }
  assert ((difference_update cfg other st).1 = None →
          ∀ x, x ∈ other → x ∈ members st → NoDup (splititem cfg x)) as Hnec.
  { intros Hnone x Hin Hx.
    destruct (decide (NoDup (splititem cfg x))) as [|Hdup]; [done |].
    rewrite (difference_update_repeated cfg other st x Hr Hin Hx Hdup)
      in Hnone. done. }
  assert (∀ x l, elements (members st) = x :: l →
            x ∈ members st ∧
            members (difference_update_self cfg st).2 = members st ∖ {[x]} ∧
            ((difference_update_self cfg st).1 = Some RuntimeError ↔
             NoDup (splititem cfg x)) ∧
            ((difference_update_self cfg st).1 = Some KeyError ↔
             ¬ NoDup (splititem cfg x))) as Hself.
  { intros x l Hel.
    assert (x ∈ members st) as Hx.
    { apply elem_of_elements. rewrite Hel. by left. }
    pose proof (reachable_consistent cfg st Hr) as Hc.
    pose proof (members_remove cfg x st) as Hm.
    split; [done |]. unfold difference_update_self. rewrite Hel.
    unfold discard. rewrite decide_True by done.
    destruct (decide (NoDup (splititem cfg x))) as [Hnd|Hdup].
    - destruct (remove_distinct cfg st x Hc Hx Hnd) as (st1 & Hrem & _).
      rewrite Hrem in *. simpl in *. split; [done |]. split; [done |].
      split; [done | tauto].
    - pose proof (remove_repeated cfg st x Hc Hx Hdup) as Herr.
      destruct (remove cfg x st) as [e st1]. simpl in *. subst e.
      split; [done |]. split; [|done]. split; [done | tauto]. }
  split_and!.
  - split; [exact Hnec | intros Hnd; by apply Hok].
  - intros Hne.
    destruct (decide (Forall (λ x, x ∈ members st → NoDup (splititem cfg x))
                        other)) as [Hall|Hnall].
    + destruct Hne. apply Hok. by rewrite Forall_forall in Hall.
    + apply not_Forall_Exists in Hnall; [|apply _].
      apply Exists_exists in Hnall as (x & Hin & Hx).
      destruct (decide (x ∈ members st)) as [Hm|Hm]; [|by destruct Hx].
      apply (difference_update_repeated cfg other st x Hr Hin Hm).
      intros Hnd. by apply Hx.
  - intros Hnone. by apply Hok, Hnec.
  - destruct (elements (members st)) as [|x l] eqn:Hel.
    + unfold difference_update_self. rewrite Hel. simpl.
      split; [|done]. intros _. by apply elements_empty_inv in Hel
        as ->%leibniz_equiv.
    + destruct (Hself x l eq_refl) as (Hx & _ & Hrun & Hkey). split.
      * intros Hnone.
        destruct (decide (NoDup (splititem cfg x))) as [Hnd|Hdup].
        -- apply Hrun in Hnd. congruence.
        -- apply Hkey in Hdup. congruence.
      * intros Hempty. rewrite Hempty in Hx. set_solver.
  - intros Hne. destruct (elements (members st)) as [|x l] eqn:Hel.
    + destruct Hne. by apply elements_empty_inv in Hel as ->%leibniz_equiv.
    + exists x. by apply (Hself x l).
Qed.

Lemma difference_update_removes_witness :
  reachable default_config (update default_config ["spam"; "eggs"] empty_index)
  ∧ members (difference_update default_config ["spam"]
               (update default_config ["spam"; "eggs"] empty_index)).2
    = members (update default_config ["spam"; "eggs"] empty_index)
      ∖ list_to_set ["spam"]
  ∧ (difference_update_self default_config
       (update default_config ["spam"; "eggs"] empty_index)).1 ≠ None.
Proof.
  pose proof (reachable_update default_config ["spam"; "eggs"] empty_index
                (reachable_empty default_config)) as Hr.
  split; [exact Hr |].
  destruct (difference_update_removes default_config ["spam"] _ Hr)
    as (_ & _ & Hret & Hself & _).
  split.
  - apply Hret. vm_compute. reflexivity.
  - intros Hnone. apply Hself in Hnone.
    assert ("spam" ∈ members
              (update default_config ["spam"; "eggs"] empty_index)) as Hin
      by (vm_compute; reflexivity).
    rewrite Hnone in Hin. by apply not_elem_of_empty in Hin.
Defined.

(** [intersection_update] on a reachable index whose items outside [other]
    have pairwise distinct n-grams returns normally and keeps exactly the
    items that are in [other]. *)
Theorem intersection_update_keeps (cfg : config) (other : gset string)
    (st : index) :
  reachable cfg st →
  (∀ x, x ∈ members st → x ∉ other → NoDup (splititem cfg x)) →
  ∃ st', intersection_update cfg other st = (None, st') ∧
    reachable cfg st' ∧
    members st' = members st ∩ other.
Proof.
  intros Hr Hnd. unfold intersection_update.
  destruct (difference_update_distinct cfg
              (filter (λ x, x ∉ other) (elements (members st))) st Hr)
    as (st' & Hd & Hr' & Hm).
  { intros x [Hx _]%list_elem_of_filter Hin. by apply Hnd. }
  exists st'. split; [done |]. split; [done |]. rewrite Hm.
  apply set_eq. intros x.
  rewrite elem_of_difference, elem_of_intersection, elem_of_list_to_set,
    list_elem_of_filter, elem_of_elements.
  destruct (decide (x ∈ other)); tauto.
Qed.

Lemma intersection_update_keeps_witness :
  reachable default_config (update default_config ["spam"; "eggs"] empty_index)
  ∧ (∀ x, x ∈ members (update default_config ["spam"; "eggs"] empty_index) →
       x ∉ ({[ "spam"; "ham" ]} : gset string) →
       NoDup (splititem default_config x))
  ∧ ∃ st',
      intersection_update default_config {[ "spam"; "ham" ]}
        (update default_config ["spam"; "eggs"] empty_index) = (None, st').
Proof.
  pose proof (reachable_update default_config ["spam"; "eggs"] empty_index
                (reachable_empty default_config)) as Hr.
  assert (∀ x, x ∈ members (update default_config ["spam"; "eggs"] empty_index)
            → x ∉ ({[ "spam"; "ham" ]} : gset string) →
            NoDup (splititem default_config x)) as Hnd.
  { intros x Hx Hn. rewrite members_update in Hx.
    assert (x = "eggs") as -> by set_solver.
    apply (bool_decide_eq_true_1 (NoDup (splititem default_config "eggs"))).
    vm_compute. reflexivity. }
  split; [exact Hr |]. split; [exact Hnd |].
  destruct (intersection_update_keeps default_config {[ "spam"; "ham" ]} _
              Hr Hnd) as (st' & Hi & _).
  exists st'. exact Hi.
Defined.

(** [symmetric_difference_update] never completes: it adds the items of
    [other] and then raises [TypeError], so the index is left holding the
    union and the common items are not removed. *)
Theorem symmetric_difference_update_raises (cfg : config)
    (other : list string) (st : index) :
  reachable cfg st →
  (∃ msg, (symmetric_difference_update cfg other st).1
          = Some (TypeError msg)) ∧
  reachable cfg (symmetric_difference_update cfg other st).2 ∧
  members (symmetric_difference_update cfg other st).2
  = members st ∪ list_to_set other ∧
  ∀ x, x ∈ members st → x ∈ other →
    x ∈ members (symmetric_difference_update cfg other st).2.
Proof.
  intros Hr. unfold symmetric_difference_update. cbn [fst snd].
  split; [by eexists |]. split; [by apply reachable_update |].
  rewrite members_update. split; [done |]. set_solver.
Qed.

Lemma symmetric_difference_update_raises_witness :
  reachable default_config (update default_config ["spam"; "eggs"] empty_index)
  ∧ "spam" ∈ members
      (symmetric_difference_update default_config ["spam"; "ham"]
         (update default_config ["spam"; "eggs"] empty_index)).2.
Proof.
  pose proof (reachable_update default_config ["spam"; "eggs"] empty_index
                (reachable_empty default_config)) as Hr.
  split; [exact Hr |].
  apply (symmetric_difference_update_raises default_config ["spam"; "ham"] _
           Hr).
  - vm_compute. reflexivity.
  - apply elem_of_cons. by left.
Defined.

(** ** Construction *)

Lemma init_stores (a : init_args) :
  args_ok a →
  ∃ c, arg_pad_char a = PyStr c ∧
    init a = inr {| threshold := num_val (arg_threshold a);
                    warp := num_val (arg_warp a);
                    N := arg_N a;
                    _pad_len := default (arg_N a - 1) (arg_pad_len a);
                    _pad_char := c;
                    _key := match arg_key a with
                            | PyFun f => Some f
                            | _ => None
                            end |}.
Proof.
  intros ([Ht0 Ht1] & [Hw1 Hw3] & HN & [Hp0 Hp1] & (c & Hc & Hlen) & Hkey).
  exists c. split; [done |]. unfold init.
  rewrite !(proj2 (Rleb_true _ _)) by done. cbn [andb negb].
  destruct (Z.leb_spec 1 (arg_N a)); [|lia]. cbn [negb].
  destruct (Z.leb_spec 0 (default (arg_N a - 1) (arg_pad_len a))); [|lia].
  destruct (Z.ltb_spec (default (arg_N a - 1) (arg_pad_len a)) (arg_N a));
    [|lia].
  cbn [andb negb]. rewrite Hc, Hlen. cbn [Nat.eqb negb].
  by destruct Hkey as [->|[f ->]].
Qed.

(** The constructor returns an index exactly for arguments that meet the
    listed conditions.  The index then stores the arguments, with
    [N - 1] for a padding length left out, the configuration is valid,
    and the set holds the given items and no others. *)
Theorem NGram_new_accepts_iff (items : list string) (a : init_args) :
  ((∃ r, NGram_new items a = inr r) ↔ args_ok a) ∧
  ∀ cfg st, NGram_new items a = inr (cfg, st) →
    valid cfg ∧
    threshold cfg = num_val (arg_threshold a) ∧
    warp cfg = num_val (arg_warp a) ∧
    N cfg = arg_N a ∧
    _pad_len cfg = default (arg_N a - 1) (arg_pad_len a) ∧
    arg_pad_char a = PyStr (_pad_char cfg) ∧
    reachable cfg st ∧
    members st = list_to_set items.
Proof.
  split.
  - split.
    + intros [[cfg st] Hnew]. unfold NGram_new in Hnew.
      destruct (init a) as [e|cfg'] eqn:Hinit; [done |].
      by apply (init_valid a cfg').
    + intros Hok. destruct (init_accepts a Hok) as [cfg Hinit].
      unfold NGram_new. rewrite Hinit. by eexists.
  - intros cfg st Hnew. unfold NGram_new in Hnew.
    destruct (init a) as [e|cfg'] eqn:Hinit; [done |].
    cbn [bind ret] in Hnew. injection Hnew as -> <-.
    destruct (init_valid a cfg Hinit) as (Hok & Hv & _).
    destruct (init_stores a Hok) as (c & Hc & Hst).
    rewrite Hinit in Hst. injection Hst as ->. cbn.
    split_and!; try done.
    + apply reachable_update, reachable_empty.
    + rewrite members_update. simpl. set_solver.
Qed.

(** ** The round trip of [add] and [remove] *)

(** From a reachable index that does not hold the item, [add] followed by
    [remove] returns normally and restores the tables whenever the n-grams
    of the item are pairwise distinct. *)
Theorem add_remove_round_trip (cfg : config) (x : string) (st : index) :
  reachable cfg st → x ∉ members st → NoDup (splititem cfg x) →
  ∃ st', remove cfg x (add cfg x st) = (None, st') ∧
    reachable cfg st' ∧
    same_tables st st'.
Proof.
  intros Hr Hx Hnd.
  destruct (remove_add_distinct cfg x st (reachable_consistent cfg st Hr)
              Hx Hnd) as (st' & Hrem & Hm & Hl & Hg).
  exists st'. split; [done |]. split.
  - eapply reachable_remove; [|exact Hrem]. by apply reachable_add.
  - by split_and!.
Qed.

Lemma add_remove_round_trip_witness :
  reachable default_config (update default_config ["spam"] empty_index) ∧
  ("ham" ∉ members (update default_config ["spam"] empty_index)) ∧
  NoDup (splititem default_config "ham") ∧
  ∃ st',
    remove default_config "ham"
      (add default_config "ham" (update default_config ["spam"] empty_index))
    = (None, st') ∧
    same_tables (update default_config ["spam"] empty_index) st'.
Proof.
  pose proof (reachable_update default_config ["spam"] empty_index
                (reachable_empty default_config)) as Hr.
  assert ("ham" ∉ members (update default_config ["spam"] empty_index)) as Hx.
  { apply (bool_decide_eq_true_1
             ("ham" ∉ members (update default_config ["spam"] empty_index))).
    vm_compute. reflexivity. }
  assert (NoDup (splititem default_config "ham")) as Hnd.
  { apply (bool_decide_eq_true_1 (NoDup (splititem default_config "ham"))).
    vm_compute. reflexivity. }
  split; [exact Hr |]. split; [exact Hx |]. split; [exact Hnd |].
  destruct (add_remove_round_trip default_config "ham" _ Hr Hx Hnd)
    as (st' & Hrem & _ & Hs).
  exists st'. split; [exact Hrem | exact Hs].
Defined.

(** ** [compare] *)

(** With keyword arguments that pass the checks of the constructor,
    [compare] of two strings returns a number between 0 and 1 and never
    raises: the score of the n-grams the two strings share when there is
    one and the score reaches the threshold, and 0 otherwise.  Without a
    key function a string that yields an n-gram compares to itself
    with 1. *)
Theorem compare_value (s1 s2 : string) (kwargs : init_args) :
  args_ok kwargs →
  ∃ cfg v,
    init kwargs = inr cfg ∧
    compare (Some s1) (Some s2) kwargs = inr v ∧
    (0 <= v <= 1)%R ∧
    (let c := common_grams (split cfg s2) (splititem cfg s1) in
     let sim := score (Z.of_nat c)
                  (Z.of_nat (length (split cfg s2))
                   + Z.of_nat (length (splititem cfg s1)) - Z.of_nat c)
                  (warp cfg) in
     v = if decide (c = 0%nat) then 0%R
         else if Rleb (threshold cfg) sim then sim else 0%R) ∧
    (arg_key kwargs = PyNone → s1 = s2 → split cfg s1 ≠ [] → v = 1%R).
Proof.
  intros Hok. destruct (init_accepts kwargs Hok) as [cfg Hinit].
  destruct (init_valid kwargs cfg Hinit) as (_ & Hv & Hk).
  exists cfg.
  set (c := common_grams (split cfg s2) (splititem cfg s1)).
  set (a := Z.of_nat (length (split cfg s2))
            + Z.of_nat (length (splititem cfg s1)) - Z.of_nat c).
  set (sim := score (Z.of_nat c) a (warp cfg)).
  exists (if decide (c = 0%nat) then 0%R
          else if Rleb (threshold cfg) sim then sim else 0%R).
  assert (c ≠ 0%nat → (0 <= sim <= 1)%R ∧ (sim = 1%R ↔ Z.of_nat c = a))
    as Hsim.
  { intros Hc.
    pose proof (common_grams_le_l (split cfg s2) (splititem cfg s1)).
    pose proof (common_grams_le_r (split cfg s2) (splititem cfg s1)).
    destruct Hv as (_ & [Hw _] & _).
    destruct (score_bounds (Z.of_nat c) a (warp cfg)) as (Hb & _ & H1);
      [subst a c; lia | subst a c; lia | lra |].
    done. }
  split; [done |]. split_and!.
  - unfold compare, NGram_new. rewrite Hinit. cbn [bind ret fst snd].
    rewrite update_single, search_single by done. cbn zeta.
    fold c a sim. destruct (decide (c = 0%nat)); [done |].
    cbn [default]. by destruct (Rleb (threshold cfg) sim).
  - destruct (decide (c = 0%nat)); [lra |].
    destruct (Rleb (threshold cfg) sim); [|lra]. by apply Hsim.
  - destruct (decide (c = 0%nat)); [lra |].
    destruct (Rleb (threshold cfg) sim); [|lra]. by apply Hsim.
  - done.
  - intros Hkey <- Hne.
    assert (splititem cfg s1 = split cfg s1) as Hsp
      by (unfold splititem, key; by rewrite (Hk Hkey)).
    assert (c = length (split cfg s1)) as Hc
      by (subst c; rewrite Hsp; apply common_grams_self).
    assert (0 < length (split cfg s1))%nat as Hlen
      by (destruct (split cfg s1); [done | simpl; lia]).
    rewrite decide_False by lia.
    assert (sim = 1%R) as ->.
    { apply Hsim; [lia |]. subst a. rewrite Hsp, Hc. lia. }
    destruct Hv as ([_ Ht] & _).
    by rewrite (proj2 (Rleb_true _ _)) by done.
Qed.

Lemma compare_value_witness :
  args_ok default_args ∧
  ∃ v, compare (Some "spam") (Some "spa") default_args = inr v ∧
       (0 <= v <= 1)%R.
Proof.
  assert (args_ok default_args) as Hok.
  { unfold args_ok, default_args; simpl.
    split_and!; try (lra || lia); [by exists "$" | by left]. }
  split; [exact Hok |].
  destruct (compare_value "spam" "spa" default_args Hok)
    as (cfg & v & _ & Hc & Hr & _).
  exists v. split; [exact Hc | exact Hr].
Defined.
